(** * gene_sketch: the track loader and the lane partitioner of track_check.py

    A shallow embedding of [read_track_file], [check_overlap] and
    [overlap_recursive], and the properties of the lane partition they
    compute.  Python integers are unbounded, so positions are [Z]; a track is
    the tuple [(name, position)]; the dictionary of the loader is a [gmap]
    keyed by the gene name.  The callers follow: [draw_tracks] of
    gene_sketcher.py and the script at the end of track_check.py. *)

From Stdlib Require Import ZArith Lia Ascii String.
From Stdlib Require Import Sorting.Sorted.
From stdpp Require Import base option list strings gmap fin_maps.

Local Open Scope Z_scope.

(** ** Outcomes of a Python call *)

(** The exceptions the two modelled functions can raise. *)
Inductive exception : Set :=
  | AssertionError
  | IndexError
  | ValueError.

(** A call returns a value, raises, or (only for the [while] loop, which is
    run with a bound on its number of iterations) is still running when the
    bound is reached. *)
Inductive outcome (A : Type) : Type :=
  | Returns (a : A)
  | Raises (e : exception)
  | Running.

Arguments Returns {A} a.
Arguments Raises {A} e.
Arguments Running {A}.

#[global] Instance outcome_bind : MBind outcome := fun A B k m =>
  match m with
  | Returns a => k a
  | Raises e => Raises e
  | Running => Running
  end.

#[global] Instance outcome_fmap : FMap outcome := fun A B f m =>
  match m with
  | Returns a => Returns (f a)
  | Raises e => Raises e
  | Running => Running
  end.

Definition returns {A : Type} (m : outcome A) : Prop :=
  match m with Returns _ => True | _ => False end.

(** ** The lane partitioner *)

Module Partitioner.
Section Partitioner.

(** [track[0]] is never inspected by the partitioner: any label type will do.
    The loader instantiates it with [string]. *)
Context {Name : Type}.

Local Abbreviation Marker := (Name * Z)%type.

(** The three variables the [for] loop of [check_overlap] updates. *)
Record scan_state : Type := {
  prev_track : Z;
  overlap : list Marker;
  not_overlap : list Marker
}.

(** [prev_track = -100000; overlap = []; not_overlap = []] *)
Definition scan_init : scan_state :=
  {| prev_track := -100000; overlap := []; not_overlap := [] |}.

(** One iteration of [for track in gene_track_list]. *)
Definition scan_step (minimum : Z) (st : scan_state) (track : Marker) : scan_state :=
  if track.2 - prev_track st <=? minimum then
    {| prev_track := track.2;
       overlap := overlap st ++ [(track.1, track.2)];
       not_overlap := not_overlap st |}
  else
    {| prev_track := track.2;
       overlap := overlap st;
       not_overlap := not_overlap st ++ [(track.1, track.2)] |}.

(** [check_overlap(gene_track_list, minimum)]: the assertion, the scan, and
    the pair [overlap, not_overlap] it returns. *)
Definition check_overlap (gene_track_list : list Marker) (minimum : Z)
  : outcome (list Marker * list Marker) :=
  if (1 <? length gene_track_list)%nat then
    let st := fold_left (scan_step minimum) gene_track_list scan_init in
    Returns (overlap st, not_overlap st)
  else Raises AssertionError.

(** The default value of the parameter [minimum]. *)
Definition default_minimum : Z := 5000.

(** The body of the [while] loop of [overlap_recursive], on the pair of the
    variables [overlap] and [final_tracks]. *)
Definition loop_body (s : list Marker * list (list Marker))
  : outcome (list Marker * list (list Marker)) :=
  '(overlap', not_overlap') ← check_overlap s.1 default_minimum;
  Returns (overlap', s.2 ++ [not_overlap']).

(** [while len(overlap) > 1: ... else: final_tracks.append(overlap)].  The
    loop has no [break], so its [else] branch runs whenever the condition
    fails.  [fuel] bounds the number of iterations. *)
Fixpoint while_loop (fuel : nat) (s : list Marker * list (list Marker))
  : outcome (list (list Marker)) :=
  if (1 <? length s.1)%nat then
    match fuel with
    | O => Running
    | S fuel' => s' ← loop_body s; while_loop fuel' s'
    end
  else Returns (s.2 ++ [s.1]).

(** [overlap_recursive(gene_track_list)] *)
Definition overlap_recursive (fuel : nat) (gene_track_list : list Marker)
  : outcome (list (list Marker)) :=
  if (1 <? length gene_track_list)%nat then
    '(overlap', not_overlap') ← check_overlap gene_track_list default_minimum;
    let final_tracks := [not_overlap'] in
    match overlap' with
    | _ :: _ => while_loop fuel (overlap', final_tracks)
    | [] => Returns final_tracks
    end
  else Raises AssertionError.

End Partitioner.
End Partitioner.

Import Partitioner.

(** ** The track loader *)

Module Loader.

Definition TAB : ascii := "009"%char.
Definition LF : ascii := "010"%char.

(** The characters [str.strip()] removes: space, tab, line feed, vertical
    tab, form feed and carriage return. *)
Definition is_space (c : ascii) : bool :=
  let n := nat_of_ascii c in
  ((9 <=? n) && (n <=? 13) || (n =? 32))%nat.

(** [for line in f]: the lines of the file, each with its terminating line
    feed; a last line without one is a line all the same. *)
Fixpoint file_lines (content : string) : list string :=
  match content with
  | EmptyString => []
  | String c rest =>
      if Ascii.eqb c LF then String c EmptyString :: file_lines rest
      else match file_lines rest with
           | line :: lines => String c line :: lines
           | [] => [String c EmptyString]
           end
  end.

Fixpoint lstrip (s : string) : string :=
  match s with
  | EmptyString => EmptyString
  | String c rest => if is_space c then lstrip rest else s
  end.

Fixpoint rstrip (s : string) : string :=
  match s with
  | EmptyString => EmptyString
  | String c rest =>
      match rstrip rest with
      | EmptyString => if is_space c then EmptyString else String c EmptyString
      | r => String c r
      end
  end.

(** [line.strip()] *)
Definition strip (s : string) : string := rstrip (lstrip s).

(** [s.split(sep)] for a one-character separator: never an empty list. *)
Fixpoint split (sep : ascii) (s : string) : list string :=
  match s with
  | EmptyString => [EmptyString]
  | String c rest =>
      if Ascii.eqb c sep then EmptyString :: split sep rest
      else match split sep rest with
           | field :: fields => String c field :: fields
           | [] => [String c EmptyString]
           end
  end.

Definition digit_of (c : ascii) : option Z :=
  let n := nat_of_ascii c in
  if ((48 <=? n) && (n <=? 57))%nat then Some (Z.of_nat n - 48) else None.

Fixpoint digits_value (acc : Z) (s : string) : option Z :=
  match s with
  | EmptyString => Some acc
  | String c rest => d ← digit_of c; digits_value (10 * acc + d) rest
  end.

Definition unsigned_literal (s : string) : option Z :=
  match s with
  | EmptyString => None
  | _ => digits_value 0 s
  end.

(** The built-in [int] on a [str], base 10: white space around, an optional
    sign, then one decimal digit or more.  [None] stands for the
    [ValueError] it raises on anything else. *)
Definition int_literal (s : string) : option Z :=
  match strip s with
  | String "+" digits => unsigned_literal digits
  | String "-" digits => Z.opp <$> unsigned_literal digits
  | digits => unsigned_literal digits
  end.

Definition int (s : string) : outcome Z :=
  match int_literal s with
  | Some z => Returns z
  | None => Raises ValueError
  end.

(** [data[i]] *)
Definition item (data : list string) (i : nat) : outcome string :=
  match data !! i with
  | Some field => Returns field
  | None => Raises IndexError
  end.

(** The built-in [sorted(tracks, key=itemgetter(1))]: a stable sort on the
    position.  The insertion puts a track in front of the tracks of the same
    position, all of which came after it in [tracks]. *)
Fixpoint insert_by_pos (track : string * Z) (tracks : list (string * Z))
  : list (string * Z) :=
  match tracks with
  | [] => [track]
  | t :: rest =>
      if track.2 <=? t.2 then track :: t :: rest
      else t :: insert_by_pos track rest
  end.

Definition sorted (tracks : list (string * Z)) : list (string * Z) :=
  foldr insert_by_pos [] tracks.

(** [data = line.strip().split("\t")] and
    [gene, track, track_pos = data[0], data[1], int(data[2])], evaluated from
    left to right. *)
Definition parse_line (line : string) : outcome (string * string * Z) :=
  let data := split TAB (strip line) in
  gene ← item data 0;
  track ← item data 1;
  field ← item data 2;
  track_pos ← int field;
  Returns (gene, track, track_pos).

(** [if gene in track_info: ... append ... else: track_info[gene] = [...]] *)
Definition add_track (track_info : gmap string (list (string * Z)))
    (gene track : string) (track_pos : Z) : gmap string (list (string * Z)) :=
  match track_info !! gene with
  | Some tracks => <[gene := tracks ++ [(track, track_pos)]]> track_info
  | None => <[gene := [(track, track_pos)]]> track_info
  end.

(** The first [for] loop, over the lines still to read. *)
Fixpoint read_lines (lines : list string)
    (track_info : gmap string (list (string * Z)))
  : outcome (gmap string (list (string * Z))) :=
  match lines with
  | [] => Returns track_info
  | line :: rest =>
      '(gene, track, track_pos) ← parse_line line;
      read_lines rest (add_track track_info gene track track_pos)
  end.

(** [read_track_file], on the content of the file.  The second loop assigns
    [track_sorted[gene]] once for each key of [track_info]. *)
Definition read_track_file (content : string)
  : outcome (gmap string (list (string * Z))) :=
  mbind (M := outcome)
    (fun track_info : gmap string (list (string * Z)) =>
       Returns (sorted <$> track_info))
    (read_lines (file_lines content) ∅).

End Loader.

Import Loader.

(** ** Vocabulary of the statements *)

Section Vocabulary.

Context {Name : Type}.

Local Abbreviation Marker := (Name * Z)%type.

(** Ascending by position, as the loader leaves a gene's tracks. *)
Definition pos_le (a b : Marker) : Prop := a.2 <= b.2.

Definition ascending (l : list Marker) : Prop := Sorted pos_le l.

Definition non_negative (l : list Marker) : Prop := Forall (fun t => 0 <= t.2) l.

(** The verdict of the scan on each track of [l], in scan order, when the
    previous position is [prev] at the start: [true] for "overlaps". *)
Fixpoint verdicts (minimum prev : Z) (l : list Marker) : list bool :=
  match l with
  | [] => []
  | track :: rest => (track.2 - prev <=? minimum) :: verdicts minimum track.2 rest
  end.

(** The elements of [l] whose verdict is [b], in the order of [l]. *)
Fixpoint select {A : Type} (b : bool) (mask : list bool) (l : list A) : list A :=
  match mask, l with
  | m :: mask', x :: l' =>
      if Bool.eqb m b then x :: select b mask' l' else select b mask' l'
  | _, _ => []
  end.

(** Merging back: the next element comes from [l1] where the mask says
    [true], from [l2] where it says [false]. *)
Fixpoint merge_by {A : Type} (mask : list bool) (l1 l2 : list A) : list A :=
  match mask with
  | [] => []
  | true :: mask' =>
      match l1 with
      | x :: l1' => x :: merge_by mask' l1' l2
      | [] => []
      end
  | false :: mask' =>
      match l2 with
      | x :: l2' => x :: merge_by mask' l1 l2'
      | [] => []
      end
  end.

(** One iteration of the [while] loop, as a relation on its variables. *)
Definition iteration (s s' : list Marker * list (list Marker)) : Prop :=
  (1 < length s.1)%nat /\ loop_body s = Returns s'.

End Vocabulary.

(** Changing the labels of the tracks, positions untouched. *)
Definition relabel {N N' : Type} (f : N -> N') (t : N * Z) : N' * Z := (f t.1, t.2).

(** Each track labelled with its index in the list as well, which tells the
    occurrences of equal tracks apart. *)
Fixpoint tag_from {Name : Type} (k : nat) (l : list (Name * Z))
  : list ((nat * Name) * Z) :=
  match l with
  | [] => []
  | t :: rest => ((k, t.1), t.2) :: tag_from (S k) rest
  end.

Definition tag {Name : Type} (l : list (Name * Z)) : list ((nat * Name) * Z) :=
  tag_from 0 l.

Definition tag_of {Name : Type} (t : (nat * Name) * Z) : nat := t.1.1.

Definition tag_lt {Name : Type} (x y : (nat * Name) * Z) : Prop :=
  (tag_of x < tag_of y)%nat.

(** A lane keeps its distance in scan order: of two tracks in it that were
    next to each other in the input, the second lies more than [minimum]
    after the first. *)
Definition spaced {Name : Type} (minimum : Z) (lane : list ((nat * Name) * Z)) : Prop :=
  forall x y, x ∈ lane -> y ∈ lane -> tag_of y = S (tag_of x) -> minimum < y.2 - x.2.

(** The records of the source, when every line of it can be read. *)
Fixpoint parse_all (lines : list string) : outcome (list (string * string * Z)) :=
  match lines with
  | [] => Returns []
  | line :: rest =>
      r ← parse_line line;
      rs ← parse_all rest;
      Returns (r :: rs)
  end.

(** The tracks of [gene] among the records, in the order of the source. *)
Definition gene_tracks (gene : string) (records : list (string * string * Z))
  : list (string * Z) :=
  (fun r => (r.1.2, r.2)) <$> filter (fun r => r.1.1 = gene) records.

(** The separators of the source, as strings. *)
Definition tab : string := String TAB EmptyString.
Definition nl : string := String LF EmptyString.

(** The markers of the worked example: A and B are too close, C and D too,
    and nothing else is. *)
Definition example_markers : list (string * Z) :=
  [("A", 100); ("B", 200); ("C", 6000); ("D", 6050)].

(** Two markers below the sentinel: each pass rejects both. *)
Definition buried_markers : list (string * Z) :=
  [("A", -200000); ("B", -200000)].

(** A well-formed source: records [gene TAB track TAB position LF], where the
    position is a string of decimal digits, the gene starts with a character
    that is not white space, and no field holds a tab or a line feed. *)
Fixpoint contains (c : ascii) (s : string) : bool :=
  match s with
  | EmptyString => false
  | String d rest => Ascii.eqb d c || contains c rest
  end.

Definition is_digit (c : ascii) : bool :=
  match digit_of c with Some _ => true | None => false end.

Fixpoint all_digits (s : string) : bool :=
  match s with
  | EmptyString => true
  | String c rest => is_digit c && all_digits rest
  end.

Definition starts_clean (s : string) : Prop :=
  match s with
  | String c _ => is_space c = false
  | EmptyString => False
  end.

Definition record_line (r : string * string * string) : string :=
  r.1.1 +:+ tab +:+ r.1.2 +:+ tab +:+ r.2 +:+ nl.

Definition well_formed_record (r : string * string * string) : Prop :=
  starts_clean r.1.1 /\
  contains TAB r.1.1 = false /\ contains LF r.1.1 = false /\
  contains TAB r.1.2 = false /\ contains LF r.1.2 = false /\
  r.2 <> EmptyString /\ all_digits r.2 = true.

Fixpoint source_of (records : list (string * string * string)) : string :=
  match records with
  | [] => EmptyString
  | r :: rest => record_line r +:+ source_of rest
  end.

(** What the loader reads from a well-formed record. *)
Definition read_record (r : string * string * string) : string * string * Z :=
  (r.1.1, r.1.2, default 0 (digits_value 0 r.2)).

(** One step of the first loop of the loader, on a record already read. *)
Definition add_record (track_info : gmap string (list (string * Z)))
    (r : string * string * Z) : gmap string (list (string * Z)) :=
  add_track track_info r.1.1 r.1.2 r.2.

(** The two records of the loader's example, and a record of four fields. *)
Definition example_source : string :=
  "CHST13" +:+ tab +:+ "var1" +:+ tab +:+ "100" +:+ nl +:+
  "CHST13" +:+ tab +:+ "var2" +:+ tab +:+ "50" +:+ nl.

Definition four_fields : string :=
  "G" +:+ tab +:+ "v" +:+ tab +:+ "5" +:+ tab +:+ "x" +:+ nl.

(** A source whose second record lacks its position. *)
Definition truncated_source : string :=
  "G" +:+ tab +:+ "v" +:+ tab +:+ "5" +:+ nl +:+
  "G" +:+ tab +:+ "w" +:+ nl +:+
  "H" +:+ tab +:+ "x" +:+ tab +:+ "7" +:+ nl.

(** ** The callers *)

(** The gap between two tracks, against [minimum]. *)
Definition gap_gt {Name : Type} (minimum : Z) (a b : Name * Z) : Prop :=
  minimum < b.2 - a.2.

Definition gap_le {Name : Type} (minimum : Z) (a b : Name * Z) : Prop :=
  b.2 - a.2 <= minimum.

Module Sketcher.

(** What [CustomTrackInsertions.__init__] stores. *)
Record CustomTrackInsertions : Type := {
  sidelength : Z;
  data : gmap Z string
}.

(** The built-in [dict] on a list of pairs: a later pair replaces an earlier
    one of the same key. *)
Definition dict (pairs : list (Z * string)) : gmap Z string :=
  foldl (fun d kv => <[kv.1 := kv.2]> d) ∅ pairs.

(** [gene_name = lines[2].split(";")[1].split('=')[1].strip()], on the
    content of the GFF file; [gff.readlines()] gives the lines as the
    iteration of the loader does. *)
Definition gene_name_of (gff : string) : outcome string :=
  line ← item (file_lines gff) 2;
  attribute ← item (split ";" line) 1;
  value ← item (split "=" attribute) 1;
  Returns (strip value).

(** The two nested loops that build [tracks_reorder]: each tuple is turned
    round, position first. *)
Definition reorder (tracks : list (list (string * Z))) : list (list (Z * string)) :=
  fmap (M := list) (fmap (M := list) (fun t : string * Z => (t.2, t.1))) tracks.

(** The last loop.  Of the diagram, an object of the graphics library, the
    function only uses [add_custom_track]: the diagram is modelled by the
    custom tracks added to it, in the order of the calls. *)
Definition add_custom_tracks (diagram : list CustomTrackInsertions)
    (tracks_reorder : list (list (Z * string))) : list CustomTrackInsertions :=
  foldl (fun dg track => dg ++ [{| sidelength := 15; data := dict track |}])
        diagram tracks_reorder.

(** [draw_tracks(TRACK_FILE, GFF_FILE, diagram)], on the contents of the two
    files; [fuel] bounds the iterations of the loop of [overlap_recursive]. *)
Definition draw_tracks (fuel : nat) (track_file gff_file : string)
    (diagram : list CustomTrackInsertions) : outcome (list CustomTrackInsertions) :=
  gene_name ← gene_name_of gff_file;
  mbind (M := outcome)
    (fun track_sorted : gmap string (list (string * Z)) =>
       match track_sorted !! gene_name with
       | Some gene_track_list =>
           tracks ← (if (1 <? length gene_track_list)%nat
                     then overlap_recursive fuel gene_track_list
                     else Returns [gene_track_list]);
           Returns (add_custom_tracks diagram (reorder tracks))
       | None => Returns diagram
       end)
    (read_track_file track_file).

End Sketcher.

Import Sketcher.

(** The script at the end of track_check.py: [a["CHST13"]] raises [KeyError]
    when the gene is missing, an exception the two functions never raise;
    what the script prints is what it returns here. *)
Inductive script_outcome : Type :=
  | Printed (final : list (list (string * Z)))
  | Failed (e : exception)
  | KeyError
  | Unfinished.

Definition script (fuel : nat) (content : string) : script_outcome :=
  match read_track_file content with
  | Returns a =>
      match a !! "CHST13" with
      | Some gene_track_list =>
          match overlap_recursive fuel gene_track_list with
          | Returns final => Printed final
          | Raises e => Failed e
          | Running => Unfinished
          end
      | None => KeyError
      end
  | Raises e => Failed e
  | Running => Unfinished
  end.

(** The pairs a custom track shows. *)
Definition shown (ct : CustomTrackInsertions) : list (Z * string) :=
  map_to_list (data ct).

(** A GFF file of three lines: two directives and the gene, whose second
    attribute names it. *)
Definition example_gff : string :=
  "##gff-version 3" +:+ nl +:+
  "##sequence-region chr2 1 9000" +:+ nl +:+
  "chr2" +:+ tab +:+ "." +:+ tab +:+ "gene" +:+ tab +:+ "1" +:+ tab +:+ "9000"
    +:+ tab +:+ "." +:+ tab +:+ "+" +:+ tab +:+ "." +:+ tab +:+ "ID=gene1"
    +:+ ";" +:+ "Name" +:+ "=" +:+ "CHST13" +:+ nl.

(** The custom track [draw_tracks] makes of a lane. *)
Definition custom_track (track : list (Z * string)) : CustomTrackInsertions :=
  {| sidelength := 15; data := dict track |}.

(** * Properties *)

(** Closed instances of [ascending] and [non_negative]. *)
Ltac solve_ascending :=
  unfold ascending, non_negative, pos_le;
  repeat (constructor; simpl; try lia).

(** ** One pass: [check_overlap] *)

Section CheckOverlap.

Context {Name : Type}.

Local Abbreviation Marker := (Name * Z)%type.

Implicit Types (l ov nov : list Marker) (minimum prev : Z) (st : @scan_state Name).

Lemma scan_step_eq minimum st (track : Marker) :
  scan_step minimum st track =
  if track.2 - prev_track st <=? minimum then
    {| prev_track := track.2; overlap := overlap st ++ [track];
       not_overlap := not_overlap st |}
  else
    {| prev_track := track.2; overlap := overlap st;
       not_overlap := not_overlap st ++ [track] |}.
Proof. unfold scan_step. by destruct track. Qed.

(** The [for] loop, by recursion on the list instead of on the state. *)
Lemma fold_scan_step minimum l st :
  let st' := fold_left (scan_step minimum) l st in
  overlap st' = overlap st ++ select true (verdicts minimum (prev_track st) l) l /\
  not_overlap st' = not_overlap st ++ select false (verdicts minimum (prev_track st) l) l.
Proof.
  revert st. induction l as [|track l IH]; intros st; simpl.
  - by rewrite !app_nil_r.
  - destruct (IH (scan_step minimum st track)) as [Ho Hn].
    rewrite Ho, Hn, scan_step_eq.
    destruct (track.2 - prev_track st <=? minimum); simpl;
      by rewrite <- ?app_assoc.
Qed.

Lemma check_overlap_eq l minimum :
  check_overlap l minimum =
  if (1 <? length l)%nat then
    Returns (select true (verdicts minimum (-100000) l) l,
             select false (verdicts minimum (-100000) l) l)
  else Raises AssertionError.
Proof.
  unfold check_overlap. destruct (1 <? length l)%nat; [|done].
  destruct (fold_scan_step minimum l scan_init) as [Ho Hn].
  simpl in *. by rewrite Ho, Hn.
Qed.

Lemma check_overlap_returns l minimum ov nov :
  check_overlap l minimum = Returns (ov, nov) ->
  (1 < length l)%nat /\
  ov = select true (verdicts minimum (-100000) l) l /\
  nov = select false (verdicts minimum (-100000) l) l.
Proof.
  rewrite check_overlap_eq. destruct (1 <? length l)%nat eqn:Hlen; [|done].
  intros [= <- <-]. apply Nat.ltb_lt in Hlen. done.
Qed.

Lemma length_verdicts minimum prev l : length (verdicts minimum prev l) = length l.
Proof. revert prev. induction l; intros; simpl; by rewrite ?IHl. Qed.

End CheckOverlap.

(** ** Selecting by a mask and merging back *)

Section Select.

Context {A : Type}.

Implicit Types (l : list A) (mask : list bool).

Lemma select_sublist b mask l : select b mask l `sublist_of` l.
Proof.
  revert l. induction mask as [|m mask IH]; intros [|x l]; simpl;
    try apply sublist_nil_l.
  destruct (Bool.eqb m b); [by apply sublist_skip | by apply sublist_cons].
Qed.

Lemma select_length mask l :
  length mask = length l ->
  (length (select true mask l) + length (select false mask l))%nat = length l.
Proof.
  revert l. induction mask as [|m mask IH]; intros [|x l] Hlen;
    simplify_eq/=; [done|].
  specialize (IH l Hlen). destruct m; simpl; lia.
Qed.

Lemma select_length_le b mask l : (length (select b mask l) <= length l)%nat.
Proof. apply sublist_length, select_sublist. Qed.

Lemma merge_select mask l :
  length mask = length l ->
  merge_by mask (select true mask l) (select false mask l) = l.
Proof.
  revert l. induction mask as [|m mask IH]; intros [|x l] Hlen;
    simplify_eq/=; [done|].
  destruct m; simpl; by rewrite IH.
Qed.

Lemma select_perm mask l :
  length mask = length l ->
  select true mask l ++ select false mask l ≡ₚ l.
Proof.
  revert l. induction mask as [|m mask IH]; intros [|x l] Hlen;
    simplify_eq/=; [done|].
  specialize (IH l Hlen). destruct m; simpl.
  - by rewrite IH.
  - by rewrite <- Permutation_middle, IH.
Qed.

Lemma elem_of_select b mask l x :
  x ∈ select b mask l <-> exists j, mask !! j = Some b /\ l !! j = Some x.
Proof.
  revert l. induction mask as [|m mask IH]; intros [|y l]; simpl.
  1-3: split; [by intros ?%elem_of_nil | by intros ([|?] & ? & ?)].
  destruct (Bool.eqb_spec m b) as [->|Hne].
  - rewrite elem_of_cons, IH. split.
    + intros [->|(j & ? & ?)]; [by exists 0%nat | by exists (S j)].
    + intros ([|j] & ? & ?); simplify_eq/=; [by left | right; eauto].
  - rewrite IH. split.
    + intros (j & ? & ?). by exists (S j).
    + intros ([|j] & ? & ?); simplify_eq/=; eauto.
Qed.

End Select.

Section CheckOverlapProperties.

Context {Name : Type}.

Local Abbreviation Marker := (Name * Z)%type.

Implicit Types (l ov nov : list Marker) (minimum prev : Z).

(** The verdict on a track other than the first depends on the gap to the
    track scanned just before it, and on nothing else. *)
Lemma verdicts_lookup_S minimum prev l i (a b : Marker) :
  l !! i = Some a -> l !! S i = Some b ->
  verdicts minimum prev l !! S i = Some (b.2 - a.2 <=? minimum).
Proof.
  revert prev i. induction l as [|t l IH]; intros prev [|i] Ha Hb;
    simplify_eq/=.
  - by destruct l; simplify_eq/=.
  - by apply IH.
Qed.

Lemma verdicts_lookup_0 minimum prev l (a : Marker) :
  l !! 0%nat = Some a ->
  verdicts minimum prev l !! 0%nat = Some (a.2 - prev <=? minimum).
Proof. destruct l; intros; by simplify_eq/=. Qed.

(** C10. For every list of at least two markers, [check_overlap] returns, and
    the two lists it returns are an order-preserving partition of the input:
    each is a subsequence of the input, every position of the input goes to
    exactly one of them (the one its verdict names), and merging them back
    in input order gives the input again. *)
Theorem check_overlap_partition l minimum :
  (2 <= length l)%nat ->
  exists ov nov,
    check_overlap l minimum = Returns (ov, nov) /\
    ov `sublist_of` l /\ nov `sublist_of` l /\
    let mask := verdicts minimum (-100000) l in
    length mask = length l /\
    ov = select true mask l /\ nov = select false mask l /\
    (length ov + length nov)%nat = length l /\
    ov ++ nov ≡ₚ l /\
    merge_by mask ov nov = l.
Proof.
  intros Hlen. rewrite check_overlap_eq.
  destruct (Nat.ltb_spec 1 (length l)) as [_|?]; [|lia].
  eexists _, _. split; [done|].
  pose proof (length_verdicts minimum (-100000) l) as Hmask.
  repeat split; auto using select_sublist, select_length, select_perm, merge_select.
Qed.

End CheckOverlapProperties.

Lemma check_overlap_partition_witness :
  exists ov nov,
    check_overlap [("A", 100); ("B", 200); ("C", 6000); ("D", 6050)] 5000
      = Returns (ov, nov) /\
    merge_by [false; true; false; true] ov nov
      = [("A", 100); ("B", 200); ("C", 6000); ("D", 6050)].
Proof.
  destruct (check_overlap_partition
              [("A", 100); ("B", 200); ("C", 6000); ("D", 6050)] 5000)
    as (ov & nov & Hret & _ & _ & _ & _ & _ & _ & _ & Hmerge);
    [simpl; lia|].
  exists ov, nov. split; [exact Hret | exact Hmerge].
Defined.

(** ** The sentinel *)

Section Sentinel.

Context {Name : Type}.

Local Abbreviation Marker := (Name * Z)%type.

Implicit Types (l ov nov : list Marker) (minimum prev : Z) (a b : Marker).

(** The first scanned track is accepted exactly when [minimum] is below its
    position plus 100000. *)
Lemma first_verdict minimum a l :
  verdicts minimum (-100000) (a :: l)
  = (a.2 + 100000 <=? minimum) :: verdicts minimum a.2 l.
Proof. reflexivity. Qed.

Lemma check_overlap_first_clear minimum a b l :
  minimum < a.2 + 100000 ->
  check_overlap (a :: b :: l) minimum
  = Returns (select true (verdicts minimum a.2 (b :: l)) (b :: l),
             a :: select false (verdicts minimum a.2 (b :: l)) (b :: l)).
Proof.
  intros Hmin. rewrite check_overlap_eq, first_verdict.
  destruct (Z.leb_spec (a.2 + 100000) minimum); [lia|done].
Qed.

Lemma check_overlap_first_overlaps minimum a b l :
  a.2 + 100000 <= minimum ->
  check_overlap (a :: b :: l) minimum
  = Returns (a :: select true (verdicts minimum a.2 (b :: l)) (b :: l),
             select false (verdicts minimum a.2 (b :: l)) (b :: l)).
Proof.
  intros Hmin. rewrite check_overlap_eq, first_verdict.
  destruct (Z.leb_spec (a.2 + 100000) minimum); [done|lia].
Qed.

(** C9, amended. For every [minimum] below 100000 and every list of at least
    two markers whose first marker has a non-negative position, the sentinel
    is below that position minus [minimum], and [check_overlap] puts the first
    marker at the head of [not_overlap]; what follows it in either list comes
    from the rest of the input. *)
Theorem sentinel_adequate minimum a b l :
  0 <= a.2 -> minimum < 100000 ->
  -100000 < a.2 - minimum /\
  exists ov nov,
    check_overlap (a :: b :: l) minimum = Returns (ov, a :: nov) /\
    ov `sublist_of` b :: l /\ nov `sublist_of` b :: l.
Proof.
  intros Hpos Hmin. split; [lia|].
  eexists _, _. split; [apply check_overlap_first_clear; lia|].
  split; apply select_sublist.
Qed.

End Sentinel.

Lemma sentinel_adequate_witness :
  -100000 < 100 - 5000 /\
  exists ov nov,
    check_overlap [("A", 100); ("B", 200)] 5000 = Returns (ov, ("A", 100) :: nov) /\
    ov `sublist_of` [("B", 200)] /\ nov `sublist_of` [("B", 200)].
Proof. apply (sentinel_adequate 5000 ("A", 100) ("B", 200) []); simpl; lia. Defined.

(** With [minimum = 100000] the first marker, at position 0, is classified as
    overlapping: nothing is accepted. *)
Lemma sentinel_counterexample :
  0 <= (("A", 0) : string * Z).2 /\
  check_overlap [("A", 0); ("B", 1)] 100000 = Returns ([("A", 0); ("B", 1)], []).
Proof. split; [simpl; lia | reflexivity]. Qed.

(** ** The loop of [overlap_recursive] *)

Section Loop.

Context {Name : Type}.

Local Abbreviation Marker := (Name * Z)%type.
Local Abbreviation state := (list Marker * list (list Marker))%type.

Implicit Types (l ov nov : list Marker) (s : state) (lanes : list (list Marker)).

Lemma loop_body_eq s :
  (1 < length s.1)%nat ->
  loop_body s =
  Returns (select true (verdicts default_minimum (-100000) s.1) s.1,
           s.2 ++ [select false (verdicts default_minimum (-100000) s.1) s.1]).
Proof.
  intros Hlen. unfold loop_body. rewrite check_overlap_eq.
  by destruct (Nat.ltb_spec 1 (length s.1)) as [_|?]; [|lia].
Qed.

Lemma iteration_eq s s' :
  iteration s s' <->
  (1 < length s.1)%nat /\
  s' = (select true (verdicts default_minimum (-100000) s.1) s.1,
        s.2 ++ [select false (verdicts default_minimum (-100000) s.1) s.1]).
Proof.
  unfold iteration. split; intros [Hlen H]; split; try done.
  - rewrite loop_body_eq in H by done. by simplify_eq.
  - by rewrite loop_body_eq, H.
Qed.

(** The loop never raises. *)
Lemma while_loop_no_raise fuel s e : while_loop fuel s <> Raises e.
Proof.
  revert s. induction fuel as [|fuel IH]; intros s; simpl;
    destruct (Nat.ltb_spec 1 (length s.1)); try done.
  rewrite loop_body_eq by done. apply IH.
Qed.

(** What a run of the loop that returns has done: some number of iterations,
    at most [fuel], until [overlap] has at most one element, which is then
    appended. *)
Lemma while_loop_returns fuel s lanes :
  while_loop fuel s = Returns lanes ->
  exists k s',
    (k <= fuel)%nat /\ nsteps iteration k s s' /\
    (length s'.1 <= 1)%nat /\ lanes = s'.2 ++ [s'.1].
Proof.
  revert s. induction fuel as [|fuel IH]; intros s; simpl;
    destruct (Nat.ltb_spec 1 (length s.1)) as [Hlen|Hlen]; try done.
  - intros [= <-]. exists 0%nat, s. split_and!; [lia|constructor|lia|done].
  - rewrite loop_body_eq by done. intros Hrun.
    destruct (IH _ Hrun) as (k & s' & Hk & Hsteps & Hfin & ->).
    exists (S k), s'. split_and!; [lia| |done|done].
    eapply nsteps_l; [|done]. by apply iteration_eq.
  - intros [= <-]. exists 0%nat, s. split_and!; [lia|constructor|lia|done].
Qed.

(** An invariant of the iterations holds when the loop is left. *)
Lemma nsteps_iteration_invariant (I : state -> Prop) k s s' :
  (forall s1 s2, I s1 -> iteration s1 s2 -> I s2) ->
  I s -> nsteps iteration k s s' -> I s'.
Proof. intros Hstep Hs Hrun. induction Hrun; eauto. Qed.

(** More fuel does not change what a run that returned has returned. *)
Lemma while_loop_more_fuel fuel fuel' s lanes :
  (fuel <= fuel')%nat ->
  while_loop fuel s = Returns lanes -> while_loop fuel' s = Returns lanes.
Proof.
  revert fuel' s. induction fuel as [|fuel IH]; intros fuel' s Hle; simpl.
  - destruct (Nat.ltb_spec 1 (length s.1)) as [Hlen|Hlen]; [done|].
    intros <-. destruct fuel'; simpl;
      by destruct (Nat.ltb_spec 1 (length s.1)); [lia|].
  - destruct fuel' as [|fuel']; [lia|]. simpl.
    destruct (Nat.ltb_spec 1 (length s.1)) as [Hlen|Hlen]; [|done].
    rewrite loop_body_eq by done. apply IH. lia.
Qed.

(** [overlap_recursive], case by case. *)
Lemma overlap_recursive_eq fuel l :
  overlap_recursive fuel l =
  if (1 <? length l)%nat then
    let mask := verdicts default_minimum (-100000) l in
    match select true mask l with
    | [] => Returns [select false mask l]
    | ov => while_loop fuel (ov, [select false mask l])
    end
  else Raises AssertionError.
Proof.
  unfold overlap_recursive. rewrite check_overlap_eq.
  destruct (1 <? length l)%nat; [|done]. simpl.
  by destruct (select true _ l).
Qed.

End Loop.

(** ** Progress, termination and the number of lanes *)

Section Progress.

Context {Name : Type}.

Local Abbreviation Marker := (Name * Z)%type.
Local Abbreviation state := (list Marker * list (list Marker))%type.

Implicit Types (l ov nov : list Marker) (s : state) (lanes : list (list Marker)).

Lemma non_negative_select b mask l : non_negative l -> non_negative (select b mask l).
Proof.
  unfold non_negative. rewrite !Forall_forall. intros Hl x Hx.
  apply Hl. eapply elem_of_sublist; [done | apply select_sublist].
Qed.

(** With the default [minimum], a pass accepts its first track as soon as
    that track lies above -95000, so when it is not negative. *)
Lemma pass_non_negative (a : Marker) l :
  0 <= a.2 ->
  let mask := verdicts default_minimum (-100000) (a :: l) in
  select true mask (a :: l) = select true (verdicts default_minimum a.2 l) l /\
  select false mask (a :: l) = a :: select false (verdicts default_minimum a.2 l) l.
Proof.
  intros Ha. cbv zeta. rewrite first_verdict. unfold default_minimum.
  destruct (Z.leb_spec (a.2 + 100000) 5000); [lia|done].
Qed.

Lemma overflow_shorter l :
  non_negative l -> l <> [] ->
  (length (select true (verdicts default_minimum (-100000) l) l) < length l)%nat.
Proof.
  intros Hl Hne. destruct l as [|a l]; [done|].
  apply Forall_cons in Hl as [Ha _].
  destruct (pass_non_negative a l Ha) as [-> _].
  pose proof (select_length_le true (verdicts default_minimum a.2 l) l).
  simpl. lia.
Qed.

Lemma accepted_head l :
  non_negative l ->
  head (select false (verdicts default_minimum (-100000) l) l) = head l.
Proof.
  intros Hl. destruct l as [|a l]; [done|].
  apply Forall_cons in Hl as [Ha _].
  by destruct (pass_non_negative a l Ha) as [_ ->].
Qed.

(** One iteration on non-negative positions: the first track is accepted,
    the overflow is strictly shorter, and nothing else changes. *)
Lemma iteration_progress s s' :
  non_negative s.1 -> iteration s s' ->
  non_negative s'.1 /\ (length s'.1 < length s.1)%nat /\
  exists lane, s'.2 = s.2 ++ [lane] /\ head lane = head s.1.
Proof.
  intros Hs [Hlen ->]%iteration_eq. simpl. split_and!.
  - by apply non_negative_select.
  - apply overflow_shorter; [done|]. intros Hnil. rewrite Hnil in Hlen. simpl in Hlen. lia.
  - eexists. split; [done|]. by apply accepted_head.
Qed.

(** In any case an iteration splits [overlap] in a new lane and the next
    [overlap]. *)
Lemma iteration_split s s' :
  iteration s s' ->
  exists lane, s'.2 = s.2 ++ [lane] /\
    (length lane + length s'.1)%nat = length s.1 /\
    lane ++ s'.1 ≡ₚ s.1 /\ s'.1 `sublist_of` s.1 /\ lane `sublist_of` s.1.
Proof.
  intros [Hlen ->]%iteration_eq. simpl. eexists. split; [done|].
  pose proof (length_verdicts default_minimum (-100000) s.1) as Hmask.
  split_and!; auto using select_sublist.
  - rewrite Nat.add_comm. by apply select_length.
  - rewrite (comm (++)). by apply select_perm.
Qed.

Lemma nsteps_non_negative k s s' :
  non_negative s.1 -> nsteps iteration k s s' -> non_negative s'.1.
Proof.
  intros Hs. apply (nsteps_iteration_invariant (fun s => non_negative s.1)); [|done].
  intros s1 s2 H1 Hit. by apply (iteration_progress s1 s2).
Qed.

(** Enough fuel: one unit for each element of [overlap] beyond the first. *)
Lemma while_loop_terminates fuel s :
  non_negative s.1 -> (length s.1 <= S fuel)%nat ->
  exists lanes, while_loop fuel s = Returns lanes.
Proof.
  revert s. induction fuel as [|fuel IH]; intros s Hs Hlen; simpl;
    destruct (Nat.ltb_spec 1 (length s.1)) as [Hgt|Hle]; eauto; [lia|].
  rewrite loop_body_eq by done.
  apply IH; simpl.
  - by apply non_negative_select.
  - assert (s.1 <> []) as Hne.
    { intros Hnil. rewrite Hnil in Hgt. simpl in Hgt. lia. }
    pose proof (overflow_shorter s.1 Hs Hne). lia.
Qed.

(** The whole call returns with a unit of fuel for each marker beyond the
    second. *)
Lemma overlap_recursive_terminates l :
  non_negative l -> (2 <= length l)%nat ->
  exists lanes, overlap_recursive (length l - 2) l = Returns lanes.
Proof.
  intros Hl Hlen. rewrite overlap_recursive_eq.
  destruct (Nat.ltb_spec 1 (length l)); [|lia]. cbv zeta.
  destruct (select true _ l) as [|t ov] eqn:Hov; [eauto|].
  apply while_loop_terminates; simpl.
  - rewrite <- Hov. by apply non_negative_select.
  - assert (l <> []) as Hne by (intros ->; simpl in *; lia).
    pose proof (overflow_shorter l Hl Hne) as Hlt.
    rewrite Hov in Hlt. simpl in Hlt. lia.
Qed.

(** The number of lanes never exceeds the number of markers still to place
    plus the lanes already made. *)
Lemma nsteps_lane_count k s s' n :
  non_negative s.1 ->
  (length s.2 + Nat.max 1 (length s.1) <= n)%nat ->
  nsteps iteration k s s' ->
  (k + length s'.1 <= length s.1)%nat /\
  (length s'.2 + Nat.max 1 (length s'.1) <= n)%nat.
Proof.
  intros Hs Hn Hrun. revert Hs Hn.
  induction Hrun as [s|k s1 s2 s3 Hit Hrun IH]; intros Hs Hn; [lia|].
  destruct (iteration_progress _ _ Hs Hit) as (Hs2 & Hlt & lane & Hlane & _).
  destruct Hit as [Hlen _].
  destruct IH as [IH1 IH2]; [done| |lia].
  rewrite Hlane, length_app. simpl. lia.
Qed.

End Progress.

(** ** The lane set of [overlap_recursive] *)

Section LaneSet.

Context {Name : Type}.

Local Abbreviation Marker := (Name * Z)%type.
Local Abbreviation state := (list Marker * list (list Marker))%type.

Implicit Types (l ov nov : list Marker) (s : state) (lanes : list (list Marker)).

(** What a call that returns has done: the first pass, then either nothing
    (no overflow) or the loop. *)
Lemma overlap_recursive_returns fuel l lanes :
  overlap_recursive fuel l = Returns lanes ->
  (1 < length l)%nat /\
  exists ov nov,
    check_overlap l default_minimum = Returns (ov, nov) /\
    ov ++ nov ≡ₚ l /\
    (ov = [] /\ lanes = [nov] \/
     ov <> [] /\ exists k s',
       (k <= fuel)%nat /\ nsteps iteration k (ov, [nov]) s' /\
       (length s'.1 <= 1)%nat /\ lanes = s'.2 ++ [s'.1]).
Proof.
  rewrite overlap_recursive_eq, check_overlap_eq.
  destruct (Nat.ltb_spec 1 (length l)) as [Hlen|?]; [|done].
  intros Hrun. split; [done|]. eexists _, _. split; [done|].
  split; [apply select_perm, length_verdicts|].
  cbv zeta in Hrun.
  destruct (select true _ l) as [|t ov] eqn:Hov.
  - left. by simplify_eq.
  - right. split; [done|]. by apply while_loop_returns.
Qed.

Lemma nsteps_complete k s s' :
  nsteps iteration k s s' -> concat s'.2 ++ s'.1 ≡ₚ concat s.2 ++ s.1.
Proof.
  induction 1 as [s|k s1 s2 s3 Hit _ IH]; [done|].
  rewrite IH. destruct (iteration_split _ _ Hit) as (lane & Hlane & _ & Hperm & _).
  rewrite Hlane, <- Hperm, concat_app, <- (assoc (++)). simpl.
  by rewrite app_nil_r.
Qed.

(** C2. Completeness: for every ascending list of at least two markers on
    which [overlap_recursive] returns, the markers of all the lanes together
    are a permutation of the input: none is lost, none is duplicated. *)
Theorem lanes_complete fuel l lanes :
  ascending l -> (2 <= length l)%nat ->
  overlap_recursive fuel l = Returns lanes ->
  concat lanes ≡ₚ l.
Proof.
  intros _ _ (_ & ov & nov & _ & Hperm & Hcase)%overlap_recursive_returns.
  rewrite <- Hperm.
  destruct Hcase as [[-> ->]|(_ & k & s' & _ & Hrun & _ & ->)].
  - simpl. by rewrite app_nil_r.
  - rewrite concat_app. simpl. rewrite app_nil_r.
    rewrite (nsteps_complete _ _ _ Hrun). simpl.
    rewrite app_nil_r. apply (comm (++)).
Qed.

(** C4. The precondition error: [overlap_recursive] and [check_overlap]
    raise [AssertionError] on a list of fewer than two markers, and raise
    only then; the passes made by the loop, which runs them on more than one
    marker, return; and on every ascending list of at least two markers at
    non-negative positions [overlap_recursive] returns a lane set. *)
Theorem precondition_error l :
  ((length l < 2)%nat ->
     (forall fuel, overlap_recursive fuel l = Raises AssertionError) /\
     (forall minimum, check_overlap l minimum = Raises AssertionError)) /\
  (forall fuel e, overlap_recursive fuel l = Raises e -> (length l < 2)%nat) /\
  (forall minimum e, check_overlap l minimum = Raises e -> (length l < 2)%nat) /\
  (forall s, (1 < length s.1)%nat -> exists s', loop_body s = Returns s') /\
  (ascending l -> non_negative l -> (2 <= length l)%nat ->
     exists lanes, overlap_recursive (length l - 2) l = Returns lanes).
Proof.
  split_and!.
  - intros Hlen. split; intros; rewrite ?overlap_recursive_eq, ?check_overlap_eq;
      by destruct (Nat.ltb_spec 1 (length l)); [lia|].
  - intros fuel e. rewrite overlap_recursive_eq.
    destruct (Nat.ltb_spec 1 (length l)); [|lia]. cbv zeta.
    destruct (select true _ l); [done|]. by intros ?%while_loop_no_raise.
  - intros minimum e. rewrite check_overlap_eq.
    by destruct (Nat.ltb_spec 1 (length l)); [|lia].
  - intros s Hlen. rewrite loop_body_eq by done. eauto.
  - intros _ Hl Hlen. by apply overlap_recursive_terminates.
Qed.

(** C5. Progress and termination: on an ascending list of n markers, two at
    least, at non-negative positions, the first pass and every pass of the
    loop accept the first track they scan and return an overflow strictly
    shorter than the list they were given; [overlap_recursive] returns with
    fuel n-2, so after at most n-2 iterations of its loop, that is n-1 passes
    with the first one. *)
Theorem progress_and_termination l :
  ascending l -> non_negative l -> (2 <= length l)%nat ->
  exists ov nov lanes,
    check_overlap l default_minimum = Returns (ov, nov) /\
    (length ov < length l)%nat /\ head nov = head l /\
    (forall k s s', nsteps iteration k (ov, [nov]) s -> iteration s s' ->
       (length s'.1 < length s.1)%nat /\
       exists lane, s'.2 = s.2 ++ [lane] /\ head lane = head s.1) /\
    (forall fuel, (length l - 2 <= fuel)%nat ->
       overlap_recursive fuel l = Returns lanes) /\
    (ov = [] /\ lanes = [nov] \/
     ov <> [] /\ exists k s',
       (1 + k <= length l - 1)%nat /\ nsteps iteration k (ov, [nov]) s' /\
       (length s'.1 <= 1)%nat /\ lanes = s'.2 ++ [s'.1]).
Proof.
  intros Hasc Hl Hlen.
  destruct (overlap_recursive_terminates l Hl Hlen) as [lanes Hlanes].
  pose proof Hlanes as (_ & ov & nov & Hpass & _ & Hcase)%overlap_recursive_returns.
  apply check_overlap_returns in Hpass as Hsel. destruct Hsel as (_ & Hov & Hnov).
  assert (l <> []) as Hne by (intros ->; simpl in *; lia).
  assert (length ov < length l)%nat as Hshort
    by (subst ov; by apply overflow_shorter).
  assert (non_negative ov) as Hovnn by (subst ov; by apply non_negative_select).
  exists ov, nov, lanes. split_and!; [done|done| | | |].
  - subst nov. by apply accepted_head.
  - intros k s s' Hrun Hit.
    assert (non_negative s.1) as Hs by by apply (nsteps_non_negative k (ov, [nov])).
    destruct (iteration_progress _ _ Hs Hit) as (_ & ? & ?). done.
  - intros fuel Hfuel. revert Hlanes. rewrite !overlap_recursive_eq.
    destruct (1 <? length l)%nat; [|done]. cbv zeta.
    destruct (select true _ l); [done|]. by apply while_loop_more_fuel.
  - destruct Hcase as [?|(Hov' & k & s' & Hk & Hrun & Hfin & Hl')]; [by left|right].
    split; [done|]. exists k, s'. split_and!; [lia|done..].
Qed.

End LaneSet.

Section LaneCount.

Context {Name : Type}.

Local Abbreviation Marker := (Name * Z)%type.
Local Abbreviation state := (list Marker * list (list Marker))%type.

Implicit Types (l ov nov : list Marker) (s : state) (lanes : list (list Marker)).

Lemma nsteps_first_lane k s s' lane0 :
  head s.2 = Some lane0 -> nsteps iteration k s s' -> head s'.2 = Some lane0.
Proof.
  intros Hs. apply (nsteps_iteration_invariant (fun s => head s.2 = Some lane0)); [|done].
  intros s1 s2 H1 (lane & -> & _)%iteration_split.
  rewrite head_app. by rewrite H1.
Qed.

(** C6, amended. On an ascending list of n markers, two at least, at
    non-negative positions, the lane set has at most n lanes; lane 0 is the
    accepted list of the first pass, and the lane a pass of the loop appends
    has at most as many markers as the overflow list given to that pass: with
    the overflow the pass leaves, which is strictly shorter, it makes up that
    list. *)
Theorem lane_count fuel l lanes :
  ascending l -> non_negative l -> (2 <= length l)%nat ->
  overlap_recursive fuel l = Returns lanes ->
  (length lanes <= length l)%nat /\
  exists ov nov,
    check_overlap l default_minimum = Returns (ov, nov) /\
    head lanes = Some nov /\
    forall k s s', nsteps iteration k (ov, [nov]) s -> iteration s s' ->
      exists lane, s'.2 = s.2 ++ [lane] /\
        (length lane <= length s.1)%nat /\
        (length lane + length s'.1)%nat = length s.1 /\
        (length s'.1 < length s.1)%nat.
Proof.
  intros _ Hl Hlen Hrun.
  pose proof Hrun as (_ & ov & nov & Hpass & _ & Hcase)%overlap_recursive_returns.
  apply check_overlap_returns in Hpass as Hsel. destruct Hsel as (_ & Hov & Hnov).
  assert (l <> []) as Hne by (intros ->; simpl in *; lia).
  assert (length ov < length l)%nat as Hshort
    by (subst ov; by apply overflow_shorter).
  assert (non_negative ov) as Hovnn by (subst ov; by apply non_negative_select).
  split; [|exists ov, nov; split_and!; [done| |]].
  - destruct Hcase as [[_ ->]|(Hov' & k & s' & _ & Hsteps & _ & ->)]; [simpl; lia|].
    destruct (nsteps_lane_count k (ov, [nov]) s' (length l)) as [_ Hcount];
      [done| |done|].
    + simpl. destruct ov; [done|]. simpl in *. lia.
    + rewrite length_app. simpl. lia.
  - destruct Hcase as [[_ ->]|(Hov' & k & s' & _ & Hsteps & _ & ->)]; [done|].
    rewrite head_app.
    by rewrite (nsteps_first_lane k (ov, [nov]) s' nov).
  - intros k s s' Hsteps Hit.
    assert (non_negative s.1) as Hs by by apply (nsteps_non_negative k (ov, [nov])).
    destruct (iteration_progress _ _ Hs Hit) as (_ & Hlt & _).
    destruct (iteration_split _ _ Hit) as (lane & Hlane & Hsum & _).
    exists lane. split_and!; [done|lia|done|done].
Qed.

(** The lane the loop appends when it is left is what remains of [overlap]:
    one marker, or none. *)
Lemma last_iteration fuel s s' :
  iteration s s' -> (length s'.1 <= 1)%nat ->
  while_loop (S fuel) s = Returns (s'.2 ++ [s'.1]).
Proof.
  intros [Hlen Hbody] Hfin. simpl.
  destruct (Nat.ltb_spec 1 (length s.1)); [|lia].
  rewrite Hbody. simpl. destruct fuel; simpl;
    by destruct (Nat.ltb_spec 1 (length s'.1)); [lia|].
Qed.

End LaneCount.

(** C1. On the worked example the second pass accepts B and D and leaves no
    overflow; the loop is left and appends what remains of [overlap], the
    empty list, as a third lane.  The claim has the lane set end with [B, D]. *)
Theorem example_extra_empty_lane fuel :
  overlap_recursive (S fuel) example_markers
  = Returns [[("A", 100); ("C", 6000)]; [("B", 200); ("D", 6050)]; []].
Proof. destruct fuel; reflexivity. Qed.

Lemma lanes_complete_witness :
  concat [[("A", 100); ("C", 6000)]; [("B", 200); ("D", 6050)]; []]
  ≡ₚ example_markers.
Proof.
  apply (lanes_complete 1 example_markers); [solve_ascending | simpl; lia | reflexivity].
Defined.

Lemma precondition_error_witness :
  overlap_recursive 0 [("A", 50)] = Raises AssertionError /\
  check_overlap [("A", 50)] 5000 = Raises AssertionError /\
  exists lanes, overlap_recursive 2 example_markers = Returns lanes.
Proof.
  destruct (precondition_error [("A", 50)]) as (Hraise & _).
  destruct Hraise as [Hrec Hpass]; [simpl; lia|].
  destruct (precondition_error example_markers) as (_ & _ & _ & _ & Hret).
  split_and!; [apply Hrec | apply Hpass |].
  apply Hret; [solve_ascending | solve_ascending | simpl; lia].
Defined.

Lemma progress_and_termination_witness :
  exists lanes, overlap_recursive 2 example_markers = Returns lanes.
Proof.
  destruct (progress_and_termination example_markers)
    as (ov & nov & lanes & _ & _ & _ & _ & Hret & _);
    [solve_ascending | solve_ascending | simpl; lia|].
  exists lanes. apply Hret. simpl. lia.
Defined.

Lemma lane_count_witness :
  let lanes := [[("A", 100); ("C", 6000)]; [("B", 200); ("D", 6050)]; []] in
  (length lanes <= length example_markers)%nat.
Proof.
  apply (lane_count 1 example_markers);
    [solve_ascending | solve_ascending | simpl; lia | reflexivity].
Defined.

(** Two markers too close to each other make two lanes, not one; and the
    second pass of the worked example is given B and D and puts both in the
    lane it makes. *)
Lemma lane_count_counterexample :
  let l := [("A", 100); ("B", 200)] in
  let lanes := [[("A", 100)]; [("B", 200)]] in
  let overflow := [("B", 200); ("D", 6050)] in
  let lane0 := [("A", 100); ("C", 6000)] in
  ascending l /\ non_negative l /\
  overlap_recursive 0 l = Returns lanes /\
  ~ (length lanes <= length l - 1)%nat /\
  check_overlap example_markers default_minimum = Returns (overflow, lane0) /\
  iteration (overflow, [lane0]) ([], [lane0; overflow]) /\
  ~ (length overflow < length overflow)%nat.
Proof.
  split_and!;
    [solve_ascending | solve_ascending | reflexivity | simpl; lia
    | reflexivity | | simpl; lia].
  split; [simpl; lia | reflexivity].
Qed.

(** ** Labels do not matter *)

Section Relabel.

Context {N N' : Type} (f : N -> N').

Implicit Types (l : list (N * Z)) (s : list (N * Z) * list (list (N * Z))).

Lemma fmap_Returns {A B : Type} (g : A -> B) (a : A) :
  fmap (M := outcome) g (Returns a) = Returns (g a).
Proof. reflexivity. Qed.

Lemma verdicts_relabel minimum prev l :
  verdicts minimum prev (relabel f <$> l) = verdicts minimum prev l.
Proof. revert prev. induction l as [|t l IH]; intros; simpl; by rewrite ?IH. Qed.

Lemma select_fmap {A B : Type} (g : A -> B) b mask (l : list A) :
  select b mask (g <$> l) = g <$> select b mask l.
Proof.
  revert l. induction mask as [|m mask IH]; intros [|x l]; simpl; try done.
  rewrite IH. by destruct (Bool.eqb m b).
Qed.

Lemma check_overlap_relabel l minimum :
  check_overlap (relabel f <$> l) minimum
  = fmap (M := outcome)
      (prod_map (fmap (M := list) (relabel f)) (fmap (M := list) (relabel f)))
      (check_overlap l minimum).
Proof.
  rewrite !check_overlap_eq, length_fmap, verdicts_relabel, !select_fmap.
  by destruct (1 <? length l)%nat.
Qed.

Lemma while_loop_relabel fuel s :
  while_loop fuel (fmap (M := list) (relabel f) s.1,
                   fmap (M := list) (fmap (M := list) (relabel f)) s.2)
  = fmap (M := outcome) (fmap (M := list) (fmap (M := list) (relabel f)))
      (while_loop fuel s).
Proof.
  revert s. induction fuel as [|fuel IH]; intros s; simpl; rewrite length_fmap;
    destruct (Nat.ltb_spec 1 (length s.1)) as [Hlen|Hlen]; try done.
  - by rewrite fmap_Returns, fmap_app.
  - rewrite !loop_body_eq by (by simpl; rewrite ?length_fmap). simpl.
    rewrite verdicts_relabel, !select_fmap. rewrite <- IH. simpl.
    by rewrite fmap_app.
  - by rewrite fmap_Returns, fmap_app.
Qed.

Lemma overlap_recursive_relabel fuel l :
  overlap_recursive fuel (fmap (M := list) (relabel f) l)
  = fmap (M := outcome) (fmap (M := list) (fmap (M := list) (relabel f)))
      (overlap_recursive fuel l).
Proof.
  rewrite !overlap_recursive_eq, length_fmap.
  destruct (1 <? length l)%nat; [|done]. cbv zeta.
  rewrite verdicts_relabel, !select_fmap.
  destruct (select true _ l) as [|t ov] eqn:Hov; [done|].
  rewrite <- while_loop_relabel. by rewrite fmap_cons.
Qed.

End Relabel.

(** ** Spacing in scan order *)

Section Tagged.

Context {Name : Type}.

Local Abbreviation Marker := (Name * Z)%type.
Local Abbreviation Tagged := ((nat * Name) * Z)%type.

Implicit Types (l : list Marker) (cur lane : list Tagged) (x y : Tagged).

Lemma untag_tag_from k l : fmap (M := list) (relabel snd) (tag_from k l) = l.
Proof.
  revert k. induction l as [|[n p] l IH]; intros k; simpl; [done|].
  by rewrite IH.
Qed.

Lemma verdicts_tag_from minimum prev k l :
  verdicts minimum prev (tag_from k l) = verdicts minimum prev l.
Proof. revert prev k. induction l as [|t l IH]; intros; simpl; by rewrite ?IH. Qed.

Lemma length_tag_from k l : length (tag_from k l) = length l.
Proof. revert k. induction l; intros; simpl; by rewrite ?IHl. Qed.

Lemma tag_from_lookup k l j :
  tag_from k l !! j = (fun t : Marker => (((k + j)%nat, t.1), t.2)) <$> l !! j.
Proof.
  revert k j. induction l as [|t l IH]; intros k [|j]; simpl; try done.
  - by rewrite Nat.add_0_r.
  - rewrite IH. by replace (S k + j)%nat with (k + S j)%nat by lia.
Qed.

Lemma tag_from_sorted k l :
  StronglySorted tag_lt (tag_from k l) /\
  Forall (fun x => (k <= tag_of x)%nat) (tag_from k l).
Proof.
  revert k. induction l as [|t l IH]; intros k; simpl.
  - split; constructor.
  - destruct (IH (S k)) as [Hs Hk]. split.
    + constructor; [done|]. eapply Forall_impl; [done|].
      intros x Hx. unfold tag_lt, tag_of in *. simpl. lia.
    + constructor; [done|]. eapply Forall_impl; [done|].
      intros x Hx. simpl in Hx. lia.
Qed.

Lemma StronglySorted_sublist {A : Type} (R : relation A) (l1 l2 : list A) :
  l1 `sublist_of` l2 -> StronglySorted R l2 -> StronglySorted R l1.
Proof.
  induction 1 as [|x l1 l2 Hsub IH|x l1 l2 Hsub IH]; intros Hs; [done|..];
    apply StronglySorted_inv in Hs as [Hs Hall]; [|by auto].
  constructor; [by auto|].
  rewrite Forall_forall in *. intros y Hy. apply Hall.
  by eapply elem_of_sublist.
Qed.

Lemma elem_of_select_cons {A : Type} b m mask (c : A) (l : list A) z :
  z ∈ select b (m :: mask) (c :: l) ->
  (Bool.eqb m b = true /\ z = c) \/ z ∈ select b mask l.
Proof.
  simpl. destruct (Bool.eqb m b); [|by right].
  intros [->|?]%elem_of_cons; [by left | by right].
Qed.

Lemma elem_of_select_elem_of {A : Type} b mask (l : list A) z :
  z ∈ select b mask l -> z ∈ l.
Proof. intros Hz. eapply elem_of_sublist; [done | apply select_sublist]. Qed.

(** An accepted track with the least tag of the list is the first one
    scanned, so it lies more than [minimum] after [prev]. *)
Lemma accepted_is_first minimum prev cur y :
  StronglySorted tag_lt cur ->
  y ∈ select false (verdicts minimum prev cur) cur ->
  (forall z, z ∈ cur -> (tag_of y <= tag_of z)%nat) ->
  minimum < y.2 - prev.
Proof.
  destruct cur as [|d cur]; [by intros _ ?%elem_of_nil|].
  intros [_ Hall]%StronglySorted_inv Hy Hleast.
  apply elem_of_select_cons in Hy as [[Hv ->]|Hy].
  - destruct (Z.leb_spec (d.2 - prev) minimum); [done|lia].
  - apply elem_of_select_elem_of in Hy.
    rewrite Forall_forall in Hall. specialize (Hall y Hy).
    specialize (Hleast d (list_elem_of_here _ _)). unfold tag_lt in Hall. lia.
Qed.

(** An accepted track lies more than [minimum] after the track scanned just
    before it, which with increasing tags is the one of the previous tag. *)
Lemma accepted_gap minimum prev cur x y :
  StronglySorted tag_lt cur ->
  x ∈ cur -> y ∈ select false (verdicts minimum prev cur) cur ->
  tag_of y = S (tag_of x) ->
  minimum < y.2 - x.2.
Proof.
  revert prev. induction cur as [|c cur IH]; intros prev Hs Hx Hy Htag;
    [by apply elem_of_nil in Hx|].
  apply StronglySorted_inv in Hs as [Hs Hall].
  rewrite Forall_forall in Hall. unfold tag_lt in Hall.
  apply elem_of_select_cons in Hy as [[_ ->]|Hy];
    apply elem_of_cons in Hx as [->|Hx].
  - lia.
  - specialize (Hall x Hx). lia.
  - apply (accepted_is_first minimum c.2 cur y Hs Hy).
    intros z Hz. specialize (Hall z Hz). lia.
  - by apply (IH c.2).
Qed.

Lemma pass_spaced minimum cur :
  StronglySorted tag_lt cur ->
  spaced minimum (select false (verdicts minimum (-100000) cur) cur).
Proof.
  intros Hs x y Hx Hy Htag.
  apply (accepted_gap minimum (-100000) cur x y); [done| |done|done].
  by apply elem_of_select_elem_of in Hx.
Qed.

Lemma short_spaced minimum lane : (length lane <= 1)%nat -> spaced minimum lane.
Proof.
  destruct lane as [|z [|??]]; simpl; intros Hlen x y Hx Hy Htag; [|..|lia].
  - by apply elem_of_nil in Hx.
  - apply list_elem_of_singleton in Hx, Hy. subst. lia.
Qed.

Lemma nsteps_spaced k (s s' : list Tagged * list (list Tagged)) :
  StronglySorted tag_lt s.1 -> Forall (spaced default_minimum) s.2 ->
  nsteps iteration k s s' ->
  StronglySorted tag_lt s'.1 /\ Forall (spaced default_minimum) s'.2.
Proof.
  intros Hs Hl Hrun.
  apply (nsteps_iteration_invariant
           (fun s => StronglySorted tag_lt s.1 /\ Forall (spaced default_minimum) s.2)
           k s s'); [|done|done].
  intros s1 s2 [H1 H2] [_ ->]%iteration_eq. simpl. split.
  - eapply StronglySorted_sublist; [apply select_sublist | done].
  - apply Forall_app. split; [done|]. constructor; [|done].
    by apply pass_spaced.
Qed.

(** Every lane of the lane set of a list with increasing tags is spaced. *)
Lemma lanes_spaced fuel cur lanes :
  StronglySorted tag_lt cur ->
  overlap_recursive fuel cur = Returns lanes ->
  Forall (spaced default_minimum) lanes.
Proof.
  intros Hs (_ & ov & nov & Hpass & _ & Hcase)%overlap_recursive_returns.
  apply check_overlap_returns in Hpass as (_ & -> & ->).
  assert (Forall (spaced default_minimum)
            [select false (verdicts default_minimum (-100000) cur) cur]) as H0
    by (constructor; [by apply pass_spaced | done]).
  destruct Hcase as [[_ ->]|(_ & k & s' & _ & Hrun & Hfin & ->)]; [done|].
  apply nsteps_spaced in Hrun as [_ Hlanes]; simpl; [| |done].
  - apply Forall_app. split; [done|]. constructor; [|done].
    by apply short_spaced.
  - eapply StronglySorted_sublist; [apply select_sublist | done].
Qed.

End Tagged.

Section ScanOrder.

Context {Name : Type}.

Local Abbreviation Marker := (Name * Z)%type.

Implicit Types (l : list Marker) (a b : Marker).

(** The list a tagged track sits in tells its verdict: the one at its index. *)
Lemma elem_of_select_tag bv minimum prev l i b :
  l !! i = Some b ->
  ((i, b.1), b.2) ∈ select bv (verdicts minimum prev (tag l)) (tag l)
  <-> verdicts minimum prev l !! i = Some bv.
Proof.
  intros Hb. unfold tag. rewrite elem_of_select, verdicts_tag_from. split.
  - intros (j & Hv & Hj). rewrite tag_from_lookup in Hj.
    destruct (l !! j) as [t|]; simplify_eq/=. done.
  - intros Hv. exists i. split; [done|]. by rewrite tag_from_lookup, Hb.
Qed.

(** C3. Spacing in scan order.  Run on the input with each marker tagged by
    its index, [overlap_recursive] makes the same lanes, tags apart; and in
    them two markers next to each other in the input and both in one lane lie
    more than the minimum, 5000, apart.  In a pass of [check_overlap], for
    any [minimum], the marker at index i+1 is accepted exactly when it lies
    more than [minimum] after the marker at index i, the one scanned just
    before it, whichever list that one went to. *)
Theorem scan_adjacent_spacing fuel l lanes :
  ascending l -> (2 <= length l)%nat ->
  overlap_recursive fuel l = Returns lanes ->
  (exists tlanes,
     overlap_recursive fuel (tag l) = Returns tlanes /\
     lanes = fmap (M := list) (fmap (M := list) (relabel snd)) tlanes /\
     forall lane i a b,
       lane ∈ tlanes -> l !! i = Some a -> l !! S i = Some b ->
       ((i, a.1), a.2) ∈ lane -> ((S i, b.1), b.2) ∈ lane ->
       default_minimum < b.2 - a.2) /\
  (forall minimum, exists ov nov,
     check_overlap (tag l) minimum = Returns (ov, nov) /\
     forall i a b,
       l !! i = Some a -> l !! S i = Some b ->
       (((S i, b.1), b.2) ∈ nov <-> minimum < b.2 - a.2) /\
       (((S i, b.1), b.2) ∈ ov <-> b.2 - a.2 <= minimum)).
Proof.
  intros _ Hlen Hrun. split.
  - pose proof (overlap_recursive_relabel (@snd nat Name) fuel (tag l)) as Hrel.
    unfold tag in Hrel at 1. rewrite untag_tag_from, Hrun in Hrel.
    destruct (overlap_recursive fuel (tag l)) as [tlanes| |] eqn:Htag; try done.
    rewrite fmap_Returns in Hrel. injection Hrel as ->.
    exists tlanes. split_and!; [done..|].
    intros lane i a b Hlane Ha Hb Hina Hinb.
    assert (Forall (spaced default_minimum) tlanes) as Hsp.
    { apply (lanes_spaced fuel (tag l)); [|done]. apply tag_from_sorted. }
    rewrite Forall_forall in Hsp.
    apply (Hsp lane Hlane _ _ Hina Hinb). done.
  - intros minimum. rewrite check_overlap_eq. unfold tag at 1.
    rewrite length_tag_from.
    destruct (Nat.ltb_spec 1 (length l)); [|lia].
    eexists _, _. split; [done|]. intros i a b Ha Hb.
    rewrite !elem_of_select_tag by done.
    rewrite (verdicts_lookup_S minimum (-100000) l i a b Ha Hb).
    destruct (Z.leb_spec (b.2 - a.2) minimum); split; split;
      intros; simplify_eq; try done; lia.
Qed.

End ScanOrder.

Lemma scan_adjacent_spacing_witness :
  exists tlanes,
    overlap_recursive 1 (tag example_markers) = Returns tlanes /\
    forall lane, lane ∈ tlanes ->
      (0%nat, "A", 100) ∈ lane -> (1%nat, "B", 200) ∈ lane -> 5000 < 200 - 100.
Proof.
  destruct (scan_adjacent_spacing 1 example_markers
              [[("A", 100); ("C", 6000)]; [("B", 200); ("D", 6050)]; []])
    as [(tlanes & Hrun & _ & Hgap) _];
    [solve_ascending | simpl; lia | reflexivity |].
  exists tlanes. split; [exact Hrun|].
  intros lane Hlane. by apply (Hgap lane 0%nat ("A", 100) ("B", 200)).
Defined.

(** The gap is not measured against the track accepted last: C is 6000 after
    A, the only track accepted before it, and still overlaps, being 3000
    after B. *)
Example gap_to_scanned_not_to_accepted :
  check_overlap [("A", 0); ("B", 3000); ("C", 6000)] default_minimum
  = Returns ([("B", 3000); ("C", 6000)], [("A", 0)]).
Proof. reflexivity. Qed.

(** ** The loader: sorting *)

Section Sorting.

Implicit Types (tracks : list (string * Z)) (t : string * Z).

Lemma insert_by_pos_perm t tracks : insert_by_pos t tracks ≡ₚ t :: tracks.
Proof.
  induction tracks as [|u tracks IH]; simpl; [done|].
  destruct (t.2 <=? u.2); [done|]. by rewrite IH, Permutation_swap.
Qed.

Lemma sorted_perm tracks : sorted tracks ≡ₚ tracks.
Proof.
  induction tracks as [|t tracks IH]; simpl; [done|].
  by rewrite insert_by_pos_perm, IH.
Qed.

Lemma insert_by_pos_hd u t tracks :
  u.2 <= t.2 -> HdRel pos_le u tracks -> HdRel pos_le u (insert_by_pos t tracks).
Proof.
  intros Hut Hhd. destruct tracks as [|v tracks]; simpl; [by constructor|].
  destruct (t.2 <=? v.2); constructor; [done|].
  by apply HdRel_inv in Hhd.
Qed.

Lemma insert_by_pos_sorted t tracks :
  Sorted pos_le tracks -> Sorted pos_le (insert_by_pos t tracks).
Proof.
  induction tracks as [|u tracks IH]; simpl; intros Hs.
  - by repeat constructor.
  - destruct (Z.leb_spec t.2 u.2).
    + constructor; [done|]. by constructor.
    + apply Sorted_inv in Hs as [Hs Hhd]. constructor; [by apply IH|].
      apply insert_by_pos_hd; [lia|done].
Qed.

Lemma sorted_ascending tracks : ascending (sorted tracks).
Proof.
  unfold ascending. induction tracks as [|t tracks IH]; simpl; [constructor|].
  by apply insert_by_pos_sorted.
Qed.

(** The insertion only goes past tracks of a smaller position: the tracks at
    any one position stay in the order they had. *)
Lemma insert_by_pos_stable p t tracks :
  filter (fun u => u.2 = p) (insert_by_pos t tracks)
  = filter (fun u => u.2 = p) (t :: tracks).
Proof.
  induction tracks as [|u tracks IH]; simpl; [done|].
  destruct (Z.leb_spec t.2 u.2) as [|Hlt]; [done|].
  rewrite (filter_cons _ u), IH, !(filter_cons _ t), !(filter_cons _ u).
  repeat case_decide; try done. lia.
Qed.

Lemma sorted_stable p tracks :
  filter (fun u => u.2 = p) (sorted tracks) = filter (fun u => u.2 = p) tracks.
Proof.
  induction tracks as [|t tracks IH]; simpl; [done|].
  by rewrite insert_by_pos_stable, !filter_cons, IH.
Qed.

End Sorting.

(** ** The loader: reading *)

Section Reading.

Implicit Types (line : string) (lines : list string)
  (info : gmap string (list (string * Z))) (r : string * string * Z)
  (records : list (string * string * Z)).

(** A line is read when it has three fields at least, the third an integer
    literal; fields after the third are not looked at. *)
Lemma parse_line_eq line :
  parse_line line =
  match split TAB (strip line) with
  | gene :: track :: field :: _ =>
      match int_literal field with
      | Some track_pos => Returns (gene, track, track_pos)
      | None => Raises ValueError
      end
  | _ => Raises IndexError
  end.
Proof.
  unfold parse_line. destruct (split TAB (strip line)) as [|g [|t [|f ?]]];
    simpl; try done.
  unfold int. by destruct (int_literal f).
Qed.

Lemma parse_line_not_running line : parse_line line <> Running.
Proof.
  rewrite parse_line_eq. destruct (split TAB (strip line)) as [|g [|t [|f ?]]];
    try done. by destruct (int_literal f).
Qed.

Lemma read_lines_parse_all lines info :
  read_lines lines info
  = fmap (M := outcome) (foldl add_record info) (parse_all lines).
Proof.
  revert info. induction lines as [|line lines IH]; intros info; simpl; [done|].
  destruct (parse_line line) as [[[gene track] track_pos]| |]; simpl; try done.
  rewrite IH. by destruct (parse_all lines).
Qed.

(** The first line that cannot be read decides. *)
Lemma parse_all_first_error good bad rest e :
  Forall (fun line => returns (parse_line line)) good ->
  parse_line bad = Raises e ->
  parse_all (good ++ bad :: rest) = Raises e.
Proof.
  intros Hgood Hbad. induction Hgood as [|line good Hline _ IH]; simpl.
  - by rewrite Hbad.
  - destruct (parse_line line); try done. simpl. by rewrite IH.
Qed.

Lemma parse_all_returns lines :
  Forall (fun line => returns (parse_line line)) lines ->
  exists records, parse_all lines = Returns records.
Proof.
  induction 1 as [|line lines Hline _ [records IH]]; simpl; [eauto|].
  destruct (parse_line line); try done. simpl. rewrite IH. simpl. eauto.
Qed.

Lemma parse_all_inv lines records :
  parse_all lines = Returns records ->
  Forall (fun line => returns (parse_line line)) lines.
Proof.
  revert records. induction lines as [|line lines IH]; intros records; simpl;
    [by constructor|].
  destruct (parse_line line) eqn:Hline; try done. simpl.
  destruct (parse_all lines) eqn:Hall; try done. intros _.
  constructor; [by rewrite Hline | eauto].
Qed.

Lemma lookup_add_record info r gene :
  add_record info r !! gene =
  if decide (r.1.1 = gene)
  then Some (default [] (info !! gene) ++ [(r.1.2, r.2)])
  else info !! gene.
Proof.
  unfold add_record, add_track. case_decide as Hg.
  - subst gene. destruct (info !! r.1.1); by rewrite lookup_insert_eq.
  - destruct (info !! r.1.1); by rewrite lookup_insert_ne.
Qed.

Lemma gene_tracks_cons gene r records :
  gene_tracks gene (r :: records) =
  if decide (r.1.1 = gene) then (r.1.2, r.2) :: gene_tracks gene records
  else gene_tracks gene records.
Proof. unfold gene_tracks. rewrite filter_cons. by case_decide. Qed.

(** The dictionary after the first loop: under each gene its tracks, in the
    order of the source, and no entry for a gene without track. *)
Lemma lookup_foldl_add_record records info gene :
  foldl add_record info records !! gene =
  match info !! gene with
  | Some tracks => Some (tracks ++ gene_tracks gene records)
  | None =>
      match gene_tracks gene records with
      | [] => None
      | tracks => Some tracks
      end
  end.
Proof.
  revert info. induction records as [|r records IH]; intros info; simpl.
  - destruct (info !! gene); by rewrite ?app_nil_r.
  - rewrite IH, lookup_add_record, gene_tracks_cons.
    case_decide; [|done].
    destruct (info !! gene); simpl; [|done]. by rewrite <- app_assoc.
Qed.

Lemma read_track_file_eq content :
  read_track_file content
  = fmap (M := outcome)
      (fun records => sorted <$> foldl add_record ∅ records)
      (parse_all (file_lines content)).
Proof.
  unfold read_track_file. rewrite read_lines_parse_all.
  by destruct (parse_all (file_lines content)).
Qed.

End Reading.

(** ** Well-formed sources are read *)

Section WellFormed.

Implicit Types (s a b : string) (c : ascii).

Lemma append_nil s : EmptyString +:+ s = s.
Proof. reflexivity. Qed.

Lemma append_cons c a s : String c a +:+ s = String c (a +:+ s).
Proof. reflexivity. Qed.

Lemma append_tab s : tab +:+ s = String TAB s.
Proof. reflexivity. Qed.

Lemma append_nl s : nl +:+ s = String LF s.
Proof. reflexivity. Qed.

Lemma append_assoc a b s : (a +:+ b) +:+ s = a +:+ (b +:+ s).
Proof.
  induction a as [|c a IH]; [done|]. by rewrite !append_cons, IH.
Qed.

Lemma contains_append c a b : contains c (a +:+ b) = contains c a || contains c b.
Proof.
  induction a as [|d a IH]; [done|].
  rewrite append_cons. simpl. by rewrite IH, orb_assoc.
Qed.

Lemma file_lines_line s rest :
  contains LF s = false ->
  file_lines (s +:+ nl +:+ rest) = (s +:+ nl) :: file_lines rest.
Proof.
  induction s as [|c s IH]; [done|].
  rewrite !append_cons. simpl.
  intros [Hc Hs]%orb_false_elim. rewrite Hc. by rewrite IH.
Qed.

Lemma split_field a b :
  contains TAB a = false -> split TAB (a +:+ tab +:+ b) = a :: split TAB b.
Proof.
  induction a as [|c a IH]; [done|].
  rewrite append_cons. simpl.
  intros [Hc Ha]%orb_false_elim. rewrite Hc. by rewrite IH.
Qed.

Lemma split_last a : contains TAB a = false -> split TAB a = [a].
Proof.
  induction a as [|c a IH]; simpl; [done|].
  intros [Hc Ha]%orb_false_elim. rewrite Hc. by rewrite IH.
Qed.

Lemma rstrip_append a b :
  rstrip b <> EmptyString -> rstrip (a +:+ b) = a +:+ rstrip b.
Proof.
  intros Hb. induction a as [|c a IH]; [done|].
  rewrite !append_cons. simpl. rewrite IH.
  destruct (a +:+ rstrip b) eqn:Hab; [|done].
  destruct a; [by rewrite append_nil in Hab | by rewrite append_cons in Hab].
Qed.

Lemma rstrip_line a : rstrip (a +:+ nl) = rstrip a.
Proof.
  induction a as [|c a IH]; [done|]. rewrite append_cons. simpl. by rewrite IH.
Qed.

Lemma digit_plain c :
  is_digit c = true ->
  is_space c = false /\ Ascii.eqb c TAB = false /\ Ascii.eqb c LF = false /\
  forall rest,
    match String c rest with
    | String "+" digits => unsigned_literal digits
    | String "-" digits => Z.opp <$> unsigned_literal digits
    | digits => unsigned_literal digits
    end = unsigned_literal (String c rest).
Proof.
  destruct c as [[] [] [] [] [] [] [] []]; try discriminate; done.
Qed.

Lemma rstrip_digits s : all_digits s = true -> rstrip s = s.
Proof.
  induction s as [|c s IH]; simpl; [done|].
  intros [Hc Hs]%andb_prop. rewrite (IH Hs).
  destruct s; [|done]. by destruct (digit_plain c Hc) as [-> _].
Qed.

Lemma contains_digits c s :
  (forall d, is_digit d = true -> Ascii.eqb d c = false) ->
  all_digits s = true -> contains c s = false.
Proof.
  intros Hc. induction s as [|d s IH]; simpl; [done|].
  intros [Hd Hs]%andb_prop. by rewrite (Hc d Hd), IH.
Qed.

Lemma digits_value_digits acc s :
  all_digits s = true -> is_Some (digits_value acc s).
Proof.
  revert acc. induction s as [|c s IH]; intros acc; simpl; [by eauto|].
  intros [Hc Hs]%andb_prop. unfold is_digit in Hc.
  destruct (digit_of c); [|done]. simpl. by apply IH.
Qed.

(** [int] on a string of digits is its decimal value. *)
Lemma int_literal_digits s :
  s <> EmptyString -> all_digits s = true ->
  int_literal s = Some (default 0 (digits_value 0 s)).
Proof.
  intros Hne Hs. unfold int_literal, strip.
  destruct s as [|c s]; [done|]. simpl in Hs. apply andb_prop in Hs as [Hc Hs].
  destruct (digit_plain c Hc) as (Hsp & _ & _ & Hsign).
  assert (rstrip (lstrip (String c s)) = String c s) as ->.
  { simpl lstrip. rewrite Hsp. apply rstrip_digits. simpl. by rewrite Hc, Hs. }
  rewrite Hsign. unfold unsigned_literal.
  destruct (digits_value_digits 0 (String c s)) as [z Hz];
    [simpl; by rewrite Hc, Hs|].
  by rewrite Hz.
Qed.

Lemma strip_record_line r :
  well_formed_record r ->
  strip (record_line r) = r.1.1 +:+ tab +:+ r.1.2 +:+ tab +:+ r.2.
Proof.
  destruct r as [[gene track] pos]. unfold well_formed_record, record_line. simpl.
  intros (Hg & _ & _ & _ & _ & Hne & Hpos). unfold strip.
  assert (lstrip (gene +:+ tab +:+ track +:+ tab +:+ pos +:+ nl)
          = gene +:+ tab +:+ track +:+ tab +:+ pos +:+ nl) as ->.
  { destruct gene as [|c gene]; [done|]. rewrite append_cons. simpl in *.
    by rewrite Hg. }
  rewrite <- !append_assoc, rstrip_line, rstrip_append;
    rewrite rstrip_digits; try done.
Qed.

Lemma parse_record_line r :
  well_formed_record r -> parse_line (record_line r) = Returns (read_record r).
Proof.
  intros Hr. rewrite parse_line_eq, strip_record_line by done.
  destruct r as [[gene track] pos]. unfold well_formed_record, read_record in *.
  simpl in *. destruct Hr as (_ & Hg & _ & Ht & _ & Hne & Hpos).
  rewrite !split_field by done. rewrite split_last.
  - by rewrite int_literal_digits.
  - apply contains_digits; [|done]. intros d Hd. by apply digit_plain.
Qed.

Lemma record_line_no_LF r :
  well_formed_record r ->
  contains LF (r.1.1 +:+ tab +:+ r.1.2 +:+ tab +:+ r.2) = false.
Proof.
  destruct r as [[gene track] pos]. unfold well_formed_record. simpl.
  intros (_ & _ & Hg & _ & Ht & _ & Hpos).
  rewrite !contains_append, Hg, Ht. simpl.
  change (contains LF pos = false).
  apply contains_digits; [|done]. intros d Hd. by apply digit_plain.
Qed.

(** A source made of well-formed records is read record by record. *)
Lemma well_formed_source_reads records :
  Forall well_formed_record records ->
  parse_all (file_lines (source_of records)) = Returns (read_record <$> records).
Proof.
  induction 1 as [|r records Hr _ IH]; simpl; [done|].
  unfold record_line at 1.
  replace ((r.1.1 +:+ tab +:+ r.1.2 +:+ tab +:+ r.2 +:+ nl) +:+ source_of records)
    with ((r.1.1 +:+ tab +:+ r.1.2 +:+ tab +:+ r.2) +:+ nl +:+ source_of records)
    by (by rewrite !append_assoc).
  rewrite file_lines_line by by apply record_line_no_LF.
  simpl.
  replace ((r.1.1 +:+ tab +:+ r.1.2 +:+ tab +:+ r.2) +:+ nl) with (record_line r)
    by (unfold record_line; by rewrite !append_assoc).
  rewrite parse_record_line by done. simpl. by rewrite IH.
Qed.

End WellFormed.

(** ** The loader: what it returns and when it fails *)

(** What the dictionary holds for a gene, given the records read. *)
Lemma read_track_file_lookup content records :
  parse_all (file_lines content) = Returns records ->
  exists m : gmap string (list (string * Z)),
    read_track_file content = Returns m /\
    forall gene,
      (m !! gene = None <-> gene_tracks gene records = []) /\
      forall tracks, m !! gene = Some tracks ->
        ascending tracks /\
        tracks ≡ₚ gene_tracks gene records /\
        forall p, filter (fun t => t.2 = p) tracks
                  = filter (fun t => t.2 = p) (gene_tracks gene records).
Proof.
  intros Hall. rewrite read_track_file_eq, Hall, fmap_Returns.
  eexists. split; [done|]. intros gene.
  rewrite lookup_fmap, lookup_foldl_add_record, lookup_empty.
  destruct (gene_tracks gene records) as [|t ts]; simpl.
  - split; [done|]. by intros tracks.
  - split; [by split|]. intros tracks [= <-].
    split_and!; [apply (sorted_ascending (t :: ts)) | apply (sorted_perm (t :: ts)) |].
    intros p. apply (sorted_stable p (t :: ts)).
Qed.

(** C7. Loader sort correctness: when every line of the source can be read,
    as is the case of a source made of well-formed records,
    [read_track_file] returns a dictionary with an entry for exactly the
    genes that have a track in the source; the tracks of a gene are those of
    the source, ascending by position, and the tracks at one position are in
    the order of the source.  The two records of the example give var2
    before var1 under CHST13. *)
Theorem loader_sort_correct :
  (forall content records,
     parse_all (file_lines content) = Returns records ->
     exists m : gmap string (list (string * Z)),
       read_track_file content = Returns m /\
       forall gene,
         (m !! gene = None <-> gene_tracks gene records = []) /\
         forall tracks, m !! gene = Some tracks ->
           ascending tracks /\
           tracks ≡ₚ gene_tracks gene records /\
           forall p, filter (fun t => t.2 = p) tracks
                     = filter (fun t => t.2 = p) (gene_tracks gene records)) /\
  (forall source,
     Forall well_formed_record source ->
     exists m : gmap string (list (string * Z)),
       read_track_file (source_of source) = Returns m /\
       forall gene tracks, m !! gene = Some tracks ->
         ascending tracks /\
         forall p, filter (fun t => t.2 = p) tracks
                   = filter (fun t => t.2 = p)
                       (gene_tracks gene (read_record <$> source))) /\
  example_source
  = source_of [("CHST13", "var1", "100"); ("CHST13", "var2", "50")] /\
  read_track_file example_source
  = Returns {[ "CHST13" := [("var2", 50); ("var1", 100)] ]}.
Proof.
  split_and!; [apply read_track_file_lookup | | reflexivity | by vm_compute].
  intros source Hwf%well_formed_source_reads.
  destruct (read_track_file_lookup _ _ Hwf) as (m & Hm & Hgene).
  exists m. split; [done|]. intros gene tracks Htracks.
  destruct (Hgene gene) as [_ Hok].
  destruct (Hok tracks Htracks) as (? & _ & ?). done.
Qed.

Lemma loader_sort_correct_witness :
  exists m : gmap string (list (string * Z)),
    read_track_file example_source = Returns m /\
    forall tracks, m !! "CHST13" = Some tracks -> ascending tracks.
Proof.
  destruct loader_sort_correct as [Hsort _].
  destruct (Hsort example_source
              [("CHST13", "var1", 100); ("CHST13", "var2", 50)])
    as (m & Hm & Hgene); [by vm_compute|].
  exists m. split; [exact Hm|]. intros tracks Htracks.
  by destruct (Hgene "CHST13") as [_ Hok]; destruct (Hok tracks Htracks).
Defined.

(** C8, amended. Failing fast: a line of fewer than three fields raises
    [IndexError], a line whose third field is not an integer literal raises
    [ValueError], and a line of three fields or more with an integer third
    field is read, whatever follows the third field; [read_track_file]
    raises the error of the first line that cannot be read, and then returns
    no dictionary; it returns one when every line can be read. *)
Theorem loader_fail_fast :
  (forall line,
     let data := split TAB (strip line) in
     ((length data < 3)%nat -> parse_line line = Raises IndexError) /\
     (forall field, data !! 2%nat = Some field -> int_literal field = None ->
        parse_line line = Raises ValueError) /\
     (forall field z, data !! 2%nat = Some field -> int_literal field = Some z ->
        returns (parse_line line))) /\
  (forall content good bad rest e,
     file_lines content = good ++ bad :: rest ->
     Forall (fun line => returns (parse_line line)) good ->
     parse_line bad = Raises e ->
     read_track_file content = Raises e) /\
  (forall content,
     Forall (fun line => returns (parse_line line)) (file_lines content) ->
     returns (read_track_file content)).
Proof.
  split_and!.
  - intros line data. rewrite parse_line_eq. fold data. clearbody data.
    split_and!.
    + intros Hlen. destruct data as [|g [|t [|f ?]]]; simpl in *; try done; lia.
    + intros field Hf Hnone.
      destruct data as [|g [|t [|f ?]]]; simplify_eq/=. by rewrite Hnone.
    + intros field z Hf Hsome.
      destruct data as [|g [|t [|f ?]]]; simplify_eq/=. by rewrite Hsome.
  - intros content good bad rest e Hlines Hgood Hbad.
    rewrite read_track_file_eq, Hlines.
    by rewrite (parse_all_first_error good bad rest e).
  - intros content [records Hall]%parse_all_returns.
    by rewrite read_track_file_eq, Hall.
Qed.

Lemma loader_fail_fast_witness :
  read_track_file truncated_source = Raises IndexError.
Proof.
  destruct loader_fail_fast as (Hline & Hfirst & _).
  apply (Hfirst truncated_source
           ["G" +:+ tab +:+ "v" +:+ tab +:+ "5" +:+ nl]
           ("G" +:+ tab +:+ "w" +:+ nl)
           ["H" +:+ tab +:+ "x" +:+ tab +:+ "7" +:+ nl]).
  - reflexivity.
  - repeat constructor.
  - apply Hline. simpl. lia.
Defined.

(** A record of four fields is read as if it had three. *)
Lemma loader_fail_fast_counterexample :
  file_lines four_fields = [four_fields] /\
  split TAB (strip four_fields) = ["G"; "v"; "5"; "x"] /\
  length (split TAB (strip four_fields)) <> 3%nat /\
  read_track_file four_fields = Returns {[ "G" := [("v", 5)] ]}.
Proof. split_and!; [reflexivity | reflexivity | by vm_compute | by vm_compute]. Qed.

(** Below the sentinel the loop makes no progress: whatever the fuel, the
    call has not returned. *)
Example buried_markers_run_forever fuel :
  overlap_recursive fuel buried_markers = Running.
Proof.
  unfold overlap_recursive. simpl.
  generalize [[] : list (string * Z)] as lanes.
  induction fuel as [|fuel IH]; intros lanes; simpl; [done|]. apply IH.
Qed.

(** * Further properties *)

(** ** Distances inside a lane *)

Section LaneSpacing.

Context {Name : Type}.

Local Abbreviation Marker := (Name * Z)%type.
Local Abbreviation state := (list Marker * list (list Marker))%type.

Implicit Types (l ov nov lane : list Marker) (s : state)
  (lanes : list (list Marker)) (minimum prev lo : Z).

Lemma pos_le_trans (a b c : Marker) : pos_le a b -> pos_le b c -> pos_le a c.
Proof. unfold pos_le. lia. Qed.

Lemma ascending_sublist l1 l2 : l1 `sublist_of` l2 -> ascending l2 -> ascending l1.
Proof.
  unfold ascending. intros Hsub Hs.
  apply StronglySorted_Sorted.
  eapply StronglySorted_sublist; [done|].
  apply Sorted_StronglySorted; [exact pos_le_trans | done].
Qed.

(** A track accepted while scanning tracks that all lie at [lo] or after it,
    [prev] included, lies more than [minimum] after [lo]. *)
Lemma accepted_beyond minimum prev lo l y :
  lo <= prev -> Forall (fun x => lo <= x.2) l ->
  y ∈ select false (verdicts minimum prev l) l ->
  minimum < y.2 - lo.
Proof.
  revert prev. induction l as [|t l IH]; intros prev Hprev Hl Hy;
    [by apply elem_of_nil in Hy|].
  apply Forall_cons in Hl as [Ht Hl].
  change (verdicts minimum prev (t :: l))
    with ((t.2 - prev <=? minimum) :: verdicts minimum t.2 l) in Hy.
  apply elem_of_select_cons in Hy as [[Hv ->]|Hy].
  - destruct (Z.leb_spec (t.2 - prev) minimum); [done|lia].
  - by apply (IH t.2).
Qed.

(** The tracks a pass accepts from an ascending list: each lies more than
    [minimum] after every track accepted before it. *)
Lemma pass_well_spaced minimum prev l :
  ascending l ->
  StronglySorted (gap_gt minimum) (select false (verdicts minimum prev l) l).
Proof.
  revert prev. induction l as [|t l IH]; intros prev Hl; [constructor|].
  assert (Forall (pos_le t) l) as Hafter
    by (apply Sorted_extends; [exact pos_le_trans | done]).
  apply Sorted_inv in Hl as [Hl _].
  change (verdicts minimum prev (t :: l))
    with ((t.2 - prev <=? minimum) :: verdicts minimum t.2 l).
  simpl. destruct (t.2 - prev <=? minimum); simpl; [by apply IH|].
  constructor; [by apply IH|].
  apply Forall_forall. intros y Hy. unfold gap_gt.
  apply (accepted_beyond minimum t.2 t.2 l y); [lia|done|done].
Qed.

Lemma short_well_spaced minimum lane :
  (length lane <= 1)%nat -> StronglySorted (gap_gt minimum) lane.
Proof.
  destruct lane as [|x [|??]]; simpl; intros; [constructor| |lia].
  constructor; [constructor|done].
Qed.

Lemma nsteps_well_spaced k s s' :
  ascending s.1 -> Forall (StronglySorted (gap_gt default_minimum)) s.2 ->
  nsteps iteration k s s' ->
  ascending s'.1 /\ Forall (StronglySorted (gap_gt default_minimum)) s'.2.
Proof.
  intros Hs Hl Hrun.
  apply (nsteps_iteration_invariant
           (fun s => ascending s.1 /\
                     Forall (StronglySorted (gap_gt default_minimum)) s.2)
           k s s'); [|done|done].
  intros s1 s2 [H1 H2] [_ ->]%iteration_eq. simpl. split.
  - eapply ascending_sublist; [apply select_sublist | done].
  - apply Forall_app. split; [done|]. constructor; [|done].
    by apply pass_well_spaced.
Qed.

Lemma overlap_recursive_well_spaced fuel l lanes :
  ascending l -> overlap_recursive fuel l = Returns lanes ->
  Forall (StronglySorted (gap_gt default_minimum)) lanes.
Proof.
  intros Hl (_ & ov & nov & Hpass & _ & Hcase)%overlap_recursive_returns.
  apply check_overlap_returns in Hpass as (_ & -> & ->).
  assert (Forall (StronglySorted (gap_gt default_minimum))
            [select false (verdicts default_minimum (-100000) l) l]) as H0
    by (constructor; [by apply pass_well_spaced | done]).
  destruct Hcase as [[_ ->]|(_ & k & s' & _ & Hrun & Hfin & ->)]; [done|].
  apply nsteps_well_spaced in Hrun as [_ Hlanes]; simpl; [| |done].
  - apply Forall_app. split; [done|]. constructor; [|done].
    by apply short_well_spaced.
  - eapply ascending_sublist; [apply select_sublist | done].
Qed.

(** X1. One pass on an ascending list, for any [minimum]: in [not_overlap]
    every track lies more than [minimum] after each track before it, so
    after the one just before it in that list, although the scan only
    compared it with the track scanned before it. *)
Theorem check_overlap_accepted_spaced l minimum ov nov :
  ascending l ->
  check_overlap l minimum = Returns (ov, nov) ->
  StronglySorted (gap_gt minimum) nov /\ Sorted (gap_gt minimum) nov.
Proof.
  intros Hl (_ & _ & ->)%check_overlap_returns.
  assert (StronglySorted (gap_gt minimum)
            (select false (verdicts minimum (-100000) l) l)) as Hs
    by by apply pass_well_spaced.
  split; [done | by apply StronglySorted_Sorted].
Qed.

(** X2. On an ascending list, every lane of the lane set is free of
    overlaps: each of its tracks lies more than 5000 after every track
    before it in the lane. *)
Theorem lanes_free_of_overlap fuel l lanes :
  ascending l ->
  overlap_recursive fuel l = Returns lanes ->
  forall lane, lane ∈ lanes ->
    StronglySorted (gap_gt default_minimum) lane /\
    forall i j a b, (i < j)%nat -> lane !! i = Some a -> lane !! j = Some b ->
      5000 < b.2 - a.2.
Proof.
  intros Hl Hrun lane Hlane.
  pose proof (overlap_recursive_well_spaced fuel l lanes Hl Hrun) as Hall.
  rewrite Forall_forall in Hall. specialize (Hall lane Hlane).
  split; [done|]. intros i j a b Hij Ha Hb.
  clear Hlane. revert i j Hij Ha Hb.
  induction Hall as [|x lane Hs IH Hx]; intros i j Hij Ha Hb; [done|].
  destruct j as [|j]; [lia|]. simpl in Hb. destruct i as [|i]; simpl in Ha.
  - simplify_eq. rewrite Forall_forall in Hx.
    apply (Hx b). by eapply list_elem_of_lookup_2.
  - apply (IH i j); [lia|done|done].
Qed.

End LaneSpacing.

Lemma check_overlap_accepted_spaced_witness :
  Sorted (gap_gt 5000) [("A", 100); ("C", 6000)].
Proof.
  apply (check_overlap_accepted_spaced example_markers 5000
           [("B", 200); ("D", 6050)] [("A", 100); ("C", 6000)]);
    [solve_ascending | reflexivity].
Defined.

Lemma lanes_free_of_overlap_witness :
  StronglySorted (gap_gt default_minimum) [("B", 200); ("D", 6050)].
Proof.
  apply (lanes_free_of_overlap 1 example_markers
           [[("A", 100); ("C", 6000)]; [("B", 200); ("D", 6050)]; []]);
    [solve_ascending | reflexivity |].
  apply list_elem_of_lookup. by exists 1%nat.
Defined.

(** ** The shape of the lane set *)

Section LaneShape.

Context {Name : Type}.

Local Abbreviation Marker := (Name * Z)%type.
Local Abbreviation state := (list Marker * list (list Marker))%type.

Implicit Types (l ov nov lane : list Marker) (s : state)
  (lanes : list (list Marker)) (minimum prev : Z).

Lemma select_replicate {A : Type} b n (k : list A) :
  length k = n ->
  select b (replicate n b) k = k /\ select (negb b) (replicate n b) k = [].
Proof.
  revert n. induction k as [|x k IH]; intros [|n] Hlen; simplify_eq/=; [done|].
  destruct (IH (length k) eq_refl) as [-> ->]. by destruct b.
Qed.

Lemma select_nil_replicate {A : Type} b mask (k : list A) :
  length mask = length k -> select b mask k = [] ->
  mask = replicate (length k) (negb b).
Proof.
  revert k. induction mask as [|m mask IH]; intros [|x k] Hlen; simplify_eq/=;
    [done|].
  destruct (Bool.eqb_spec m b) as [->|Hne]; [done|].
  intros Hsel. rewrite <- (IH k) by done. by destruct m, b.
Qed.

(** Every verdict is "clear" exactly when the first track lies more than
    [minimum] after [prev] and each other one more than [minimum] after the
    one before it. *)
Lemma verdicts_all_clear minimum prev l :
  verdicts minimum prev l = replicate (length l) false <->
  Sorted (gap_gt minimum) l /\ forall t, head l = Some t -> minimum < t.2 - prev.
Proof.
  revert prev. induction l as [|t l IH]; intros prev; simpl.
  - split; [|done]. intros _. split; [constructor|done].
  - split.
    + intros [= Ht Hl]. apply IH in Hl as [Hs Hhd]. split.
      * constructor; [done|]. destruct l; constructor. by apply Hhd.
      * intros ? [= <-]. destruct (Z.leb_spec (t.2 - prev) minimum); [done|lia].
    + intros [[Hs Hhd]%Sorted_inv Ht]. f_equal.
      * specialize (Ht t eq_refl).
        destruct (Z.leb_spec (t.2 - prev) minimum); [lia|done].
      * apply IH. split; [done|]. intros u Hu.
        destruct l; simplify_eq/=. by apply HdRel_inv in Hhd.
Qed.

(** Every verdict is "overlaps" exactly when the first track lies at most
    [minimum] after [prev] and each other one at most [minimum] after the one
    before it. *)
Lemma verdicts_all_overlap minimum prev l :
  verdicts minimum prev l = replicate (length l) true <->
  Sorted (gap_le minimum) l /\ forall t, head l = Some t -> t.2 - prev <= minimum.
Proof.
  revert prev. induction l as [|t l IH]; intros prev; simpl.
  - split; [|done]. intros _. split; [constructor|done].
  - split.
    + intros [= Ht Hl]. apply IH in Hl as [Hs Hhd]. split.
      * constructor; [done|]. destruct l; constructor. by apply Hhd.
      * intros ? [= <-]. destruct (Z.leb_spec (t.2 - prev) minimum); [lia|done].
    + intros [[Hs Hhd]%Sorted_inv Ht]. f_equal.
      * specialize (Ht t eq_refl).
        destruct (Z.leb_spec (t.2 - prev) minimum); [done|lia].
      * apply IH. split; [done|]. intros u Hu.
        destruct l; simplify_eq/=. by apply HdRel_inv in Hhd.
Qed.

Lemma nsteps_sublists k s s' l :
  s.1 `sublist_of` l -> Forall (fun lane => lane `sublist_of` l) s.2 ->
  nsteps iteration k s s' ->
  s'.1 `sublist_of` l /\ Forall (fun lane => lane `sublist_of` l) s'.2.
Proof.
  intros Hs Hl Hrun.
  apply (nsteps_iteration_invariant
           (fun s => s.1 `sublist_of` l /\
                     Forall (fun lane => lane `sublist_of` l) s.2)
           k s s'); [|done|done].
  intros s1 s2 [H1 H2] [_ ->]%iteration_eq. simpl. split.
  - etrans; [apply select_sublist | done].
  - apply Forall_app. split; [done|]. constructor; [|done].
    etrans; [apply select_sublist | done].
Qed.

Lemma overlap_recursive_sublists fuel l lanes :
  overlap_recursive fuel l = Returns lanes ->
  Forall (fun lane => lane `sublist_of` l) lanes.
Proof.
  intros (_ & ov & nov & Hpass & _ & Hcase)%overlap_recursive_returns.
  apply check_overlap_returns in Hpass as (_ & -> & ->).
  destruct Hcase as [[_ ->]|(_ & k & s' & _ & Hrun & _ & ->)].
  - constructor; [apply select_sublist | done].
  - apply nsteps_sublists with (l := l) in Hrun as [H1 H2]; simpl.
    + apply Forall_app. split; [done|]. by constructor.
    + apply select_sublist.
    + constructor; [apply select_sublist | done].
Qed.

(** X3. Every lane of the lane set is a subsequence of the input: the
    tracks of a lane are in the order they had in the input. *)
Theorem lanes_are_subsequences fuel l lanes :
  overlap_recursive fuel l = Returns lanes ->
  forall lane, lane ∈ lanes -> lane `sublist_of` l.
Proof. intros Hrun. apply Forall_forall. by apply (overlap_recursive_sublists fuel). Qed.

(** Nothing overlaps: the lane set is the input, as one lane. *)
Lemma well_spaced_single_lane fuel l :
  (2 <= length l)%nat ->
  Sorted (gap_gt default_minimum) l ->
  (forall t, head l = Some t -> -95000 < t.2) ->
  overlap_recursive fuel l = Returns [l].
Proof.
  intros Hlen Hs Hhd. rewrite overlap_recursive_eq.
  destruct (Nat.ltb_spec 1 (length l)); [|lia]. cbv zeta.
  assert (verdicts default_minimum (-100000) l = replicate (length l) false)
    as ->.
  { apply verdicts_all_clear. split; [done|]. intros t Ht.
    specialize (Hhd t Ht). unfold default_minimum. lia. }
  destruct (select_replicate false (length l) l eq_refl) as [Hf Ht].
  simpl in Ht. by rewrite Hf, Ht.
Qed.

Lemma nsteps_second_lane k s s' lane0 :
  head s.2 = Some lane0 -> nsteps iteration k s s' ->
  exists rest, s'.2 = lane0 :: rest.
Proof.
  intros Hs Hrun.
  assert (head s'.2 = Some lane0) as Hhd by by apply (nsteps_first_lane k s).
  destruct s'.2; simplify_eq/=. eauto.
Qed.

(** X4. The lane set is one lane exactly when nothing overlaps: for a list
    of at least two markers, [overlap_recursive] returns a single lane if and
    only if the first marker lies above -95000 and every other marker more
    than 5000 after the one before it; the lane is then the input itself. *)
Theorem single_lane_iff fuel l :
  (2 <= length l)%nat ->
  ((exists lane, overlap_recursive fuel l = Returns [lane]) <->
   Sorted (gap_gt default_minimum) l /\
   forall t, head l = Some t -> -95000 < t.2) /\
  (forall lane, overlap_recursive fuel l = Returns [lane] -> lane = l).
Proof.
  intros Hlen.
  pose proof (length_verdicts default_minimum (-100000) l) as Hmask.
  assert (forall lane, overlap_recursive fuel l = Returns [lane] ->
            verdicts default_minimum (-100000) l = replicate (length l) false /\
            lane = l) as Hsingle.
  { intros lane Hrun.
    pose proof Hrun as (_ & ov & nov & Hpass & _ & Hcase)%overlap_recursive_returns.
    apply check_overlap_returns in Hpass as (_ & -> & ->).
    destruct Hcase as [[Hov [= ->]]|(_ & k & s' & _ & Hsteps & _ & Hl)].
    - apply select_nil_replicate in Hov as Hv; [|done]. simpl in Hv.
      split; [done|]. rewrite Hv.
      by destruct (select_replicate false (length l) l eq_refl) as [-> _].
    - apply nsteps_second_lane with (lane0 := select false
        (verdicts default_minimum (-100000) l) l) in Hsteps as [rest Hrest];
        [|done].
      rewrite Hrest in Hl. by destruct rest. }
  split; [split|].
  - intros [lane [Hv _]%Hsingle]. apply verdicts_all_clear in Hv as [Hs Hhd].
    split; [done|]. intros t Ht. specialize (Hhd t Ht).
    unfold default_minimum in Hhd. lia.
  - intros [Hs Hhd]. exists l. by apply well_spaced_single_lane.
  - intros lane Hrun. by apply Hsingle.
Qed.

(** X5. No return below the sentinel: when the first marker lies at -95000
    or below and every other marker at most 5000 after the one before it,
    each pass puts every marker in [overlap], and the loop goes on whatever
    the number of iterations allowed. *)
Theorem clustered_below_sentinel_diverges l :
  (2 <= length l)%nat ->
  (forall t, head l = Some t -> t.2 <= -95000) ->
  Sorted (gap_le default_minimum) l ->
  check_overlap l default_minimum = Returns (l, []) /\
  forall fuel, overlap_recursive fuel l = Running.
Proof.
  intros Hlen Hhd Hs.
  assert (verdicts default_minimum (-100000) l = replicate (length l) true)
    as Hv.
  { apply verdicts_all_overlap. split; [done|]. intros t Ht.
    specialize (Hhd t Ht). unfold default_minimum. lia. }
  destruct (select_replicate true (length l) l eq_refl) as [Ht Hf].
  simpl in Hf. split.
  - rewrite check_overlap_eq, Hv, Ht, Hf.
    by destruct (Nat.ltb_spec 1 (length l)); [|lia].
  - intros fuel. rewrite overlap_recursive_eq.
    destruct (Nat.ltb_spec 1 (length l)); [|lia]. cbv zeta.
    rewrite Hv, Ht, Hf.
    assert (forall lanes, while_loop fuel (l, lanes) = Running) as Hloop.
    { induction fuel as [|fuel IH]; intros lanes; simpl;
        destruct (Nat.ltb_spec 1 (length l)) as [_|?]; try lia; [done|].
      rewrite loop_body_eq by done. simpl fst. simpl snd.
      rewrite Hv, Ht, Hf. apply IH. }
    destruct l; [simpl in Hlen; lia | apply Hloop].
Qed.

Lemma nsteps_lanes_nonempty k s s' :
  non_negative s.1 -> Forall (fun lane => lane <> []) s.2 ->
  nsteps iteration k s s' ->
  Forall (fun lane => lane <> []) s'.2.
Proof.
  intros Hs Hl Hrun.
  apply (nsteps_iteration_invariant
           (fun s => non_negative s.1 /\ Forall (fun lane => lane <> []) s.2)
           k s s'); [|done|done].
  intros s1 s2 [H1 H2] Hit.
  destruct (iteration_progress _ _ H1 Hit) as (Hnn & _ & lane & -> & Hhd).
  split; [done|]. apply Forall_app. split; [done|]. constructor; [|done].
  intros ->. destruct Hit as [Hlen _]. destruct s1.1; simpl in *; [lia|done].
Qed.

(** X6. On markers at non-negative positions, only the last lane can be
    empty: the lane set is some non-empty lanes followed by a last lane,
    which is the input itself when it is the only lane and has at most one
    marker otherwise. *)
Theorem lanes_nonempty_but_last fuel l lanes :
  non_negative l ->
  overlap_recursive fuel l = Returns lanes ->
  exists init last,
    lanes = init ++ [last] /\
    Forall (fun lane => lane <> []) init /\
    (init = [] -> last = l) /\
    (init <> [] -> (length last <= 1)%nat).
Proof.
  intros Hl Hrun.
  pose proof Hrun as (Hlen & ov & nov & Hpass & _ & Hcase)%overlap_recursive_returns.
  apply check_overlap_returns in Hpass as (_ & -> & ->).
  pose proof (length_verdicts default_minimum (-100000) l) as Hmask.
  destruct Hcase as [[Hov ->]|(_ & k & s' & _ & Hsteps & Hfin & ->)].
  - exists [], (select false (verdicts default_minimum (-100000) l) l).
    split_and!; [done|constructor| |done]. intros _.
    apply select_nil_replicate in Hov; [|done]. simpl in Hov. rewrite Hov.
    by destruct (select_replicate false (length l) l eq_refl) as [-> _].
  - exists s'.2, s'.1. split_and!; [done| | |done].
    + apply (nsteps_lanes_nonempty k
               (select true (verdicts default_minimum (-100000) l) l,
                [select false (verdicts default_minimum (-100000) l) l]) s');
        simpl; [by apply non_negative_select| |done].
      constructor; [|done]. intros Hnil.
      pose proof (accepted_head l Hl) as Hhd. rewrite Hnil in Hhd.
      destruct l; simpl in *; [lia|done].
    + intros Hnil.
      apply nsteps_second_lane with (lane0 := select false
        (verdicts default_minimum (-100000) l) l) in Hsteps as [rest Hrest];
        [|done].
      by rewrite Hrest in Hnil.
Qed.

(** X7. A lane is left alone: on an ascending list of markers at
    non-negative positions, partitioning again a lane of two markers or more
    gives that lane back as the only lane, without any iteration of the
    loop. *)
Theorem lane_partitions_to_itself fuel l lanes :
  ascending l -> non_negative l ->
  overlap_recursive fuel l = Returns lanes ->
  forall lane, lane ∈ lanes -> (2 <= length lane)%nat ->
    forall fuel', overlap_recursive fuel' lane = Returns [lane].
Proof.
  intros Hasc Hl Hrun lane Hlane Hlen fuel'.
  pose proof (overlap_recursive_well_spaced fuel l lanes Hasc Hrun) as Hsp.
  pose proof (overlap_recursive_sublists fuel l lanes Hrun) as Hsub.
  rewrite Forall_forall in Hsp, Hsub.
  apply well_spaced_single_lane; [done| |].
  - apply StronglySorted_Sorted. by apply Hsp.
  - intros t Ht. unfold non_negative in Hl. rewrite Forall_forall in Hl.
    assert (t ∈ l) as Hin.
    { eapply elem_of_sublist; [|by apply Hsub]. destruct lane; simplify_eq/=.
      apply list_elem_of_here. }
    specialize (Hl t Hin). lia.
Qed.

End LaneShape.

Lemma lanes_are_subsequences_witness :
  [("B", 200); ("D", 6050)] `sublist_of` example_markers.
Proof.
  apply (lanes_are_subsequences 1 example_markers
           [[("A", 100); ("C", 6000)]; [("B", 200); ("D", 6050)]; []]);
    [reflexivity|].
  apply list_elem_of_lookup. by exists 1%nat.
Defined.

Lemma single_lane_iff_witness :
  exists lane, overlap_recursive 0 [("A", 0); ("B", 6000)] = Returns [lane].
Proof.
  destruct (single_lane_iff 0 [("A", 0); ("B", 6000)]) as [[_ Hone] _];
    [simpl; lia|].
  apply Hone. split.
  - repeat (constructor; unfold gap_gt, default_minimum; simpl; try lia).
  - intros t [= <-]. simpl. lia.
Defined.

Lemma clustered_below_sentinel_diverges_witness :
  check_overlap buried_markers default_minimum = Returns (buried_markers, []) /\
  overlap_recursive 1000 buried_markers = Running.
Proof.
  destruct (clustered_below_sentinel_diverges buried_markers) as [Hpass Hrun].
  - simpl. lia.
  - intros t [= <-]. simpl. lia.
  - repeat (constructor; unfold gap_le, default_minimum; simpl; try lia).
  - split; [exact Hpass | exact (Hrun 1000%nat)].
Defined.

Lemma lanes_nonempty_but_last_witness :
  exists init last,
    [[("A", 100); ("C", 6000)]; [("B", 200); ("D", 6050)]; []] = init ++ [last] /\
    Forall (fun lane => lane <> []) init /\
    (init = [] -> last = example_markers) /\
    (init <> [] -> (length last <= 1)%nat).
Proof.
  apply (lanes_nonempty_but_last 1 example_markers); [solve_ascending | reflexivity].
Defined.

Lemma lane_partitions_to_itself_witness :
  overlap_recursive 0 [("B", 200); ("D", 6050)]
  = Returns [[("B", 200); ("D", 6050)]].
Proof.
  apply (lane_partitions_to_itself 1 example_markers
           [[("A", 100); ("C", 6000)]; [("B", 200); ("D", 6050)]; []]);
    [solve_ascending | solve_ascending | reflexivity | | simpl; lia].
  apply list_elem_of_lookup. by exists 1%nat.
Defined.

(** ** The loader: all or nothing *)

Section AllOrNothing.

Implicit Types (content line : string) (lines : list string).

Lemma parse_all_not_running lines : parse_all lines <> Running.
Proof.
  induction lines as [|line lines IH]; simpl; [done|].
  pose proof (parse_line_not_running line).
  destruct (parse_line line); simpl; try done.
  by destruct (parse_all lines).
Qed.

Lemma parse_all_raises lines :
  (exists e, parse_all lines = Raises e) <->
  exists line, line ∈ lines /\ exists e, parse_line line = Raises e.
Proof.
  split.
  - intros [e He]. induction lines as [|line lines IH]; simpl in He; [done|].
    destruct (parse_line line) as [r|e'|] eqn:Hline; simpl in He; [| |done].
    + destruct (parse_all lines) as [rs|e2|]; simpl in He; simplify_eq.
      destruct IH as (line' & Hin & Hraise); [done|].
      exists line'. split; [by apply list_elem_of_further | done].
    + exists line. split; [apply list_elem_of_here | eauto].
  - intros (line & Hin & e & He).
    pose proof (parse_all_not_running lines).
    destruct (parse_all lines) as [rs|e'|] eqn:Hall; [|eauto|done].
    apply parse_all_inv in Hall. rewrite Forall_forall in Hall.
    specialize (Hall line Hin). by rewrite He in Hall.
Qed.

Lemma file_lines_nil content : file_lines content = [] <-> content = EmptyString.
Proof.
  split; [|by intros ->]. destruct content as [|c rest]; [done|]. simpl.
  destruct (Ascii.eqb c LF); [done|]. by destruct (file_lines rest).
Qed.

Lemma parse_blank_line line :
  strip line = EmptyString -> parse_line line = Raises IndexError.
Proof. intros Hblank. by rewrite parse_line_eq, Hblank. Qed.

(** X8. The load fails exactly when some line of the source cannot be read,
    wherever the line is: lines read before it leave nothing behind. *)
Theorem load_fails_iff_unreadable_line content :
  (exists e, read_track_file content = Raises e) <->
  exists line, line ∈ file_lines content /\ exists e, parse_line line = Raises e.
Proof.
  rewrite <- parse_all_raises, read_track_file_eq.
  destruct (parse_all (file_lines content)) as [records|e0|];
    split; intros [e1 He]; simplify_eq/=; eauto.
Qed.

(** X9. A line of white space only, a line feed alone for one, makes the
    load fail: once stripped it has a single field, and [data[1]] raises
    [IndexError]. *)
Theorem blank_line_fails_load content line :
  line ∈ file_lines content -> strip line = EmptyString ->
  parse_line line = Raises IndexError /\
  exists e, read_track_file content = Raises e.
Proof.
  intros Hin Hblank%parse_blank_line. split; [done|].
  destruct (parse_all_raises (file_lines content)) as [_ [e He]]; [by eauto|].
  exists e. by rewrite read_track_file_eq, He.
Qed.

(** X10. The dictionary is empty exactly for the empty source: a source
    that is read and has a line has an entry. *)
Theorem load_empty_iff content :
  read_track_file content = Returns ∅ <-> content = EmptyString.
Proof.
  split; [|by intros ->].
  rewrite read_track_file_eq. intros Hload.
  destruct (parse_all (file_lines content)) as [records| |] eqn:Hall;
    simplify_eq/=.
  apply fmap_empty_inv in Hload.
  destruct records as [|r records].
  - apply file_lines_nil. destruct (file_lines content) as [|line lines]; [done|].
    simpl in Hall. destruct (parse_line line); simpl in Hall; try done.
    by destruct (parse_all lines).
  - pose proof (lookup_foldl_add_record (r :: records) ∅ r.1.1) as Hlook.
    rewrite Hload, !lookup_empty, gene_tracks_cons in Hlook.
    by rewrite decide_True in Hlook by done.
Qed.

End AllOrNothing.

Lemma blank_line_fails_load_witness :
  exists e, read_track_file (example_source +:+ nl) = Raises e.
Proof.
  apply (blank_line_fails_load (example_source +:+ nl) nl); [|reflexivity].
  apply list_elem_of_lookup. by exists 2%nat.
Defined.

(** ** The caller [draw_tracks] *)

Section Dict.

Implicit Types (pairs : list (Z * string)) (d : gmap Z string).

Lemma foldl_insert_union pairs d :
  NoDup pairs.*1 ->
  foldl (fun d kv => <[kv.1 := kv.2]> d) d pairs = list_to_map pairs ∪ d.
Proof.
  revert d. induction pairs as [|[k v] pairs IH]; intros d Hnd.
  - simpl. by rewrite (left_id_L ∅ (∪)).
  - rewrite fmap_cons in Hnd. apply NoDup_cons in Hnd as [Hk Hnd].
    simpl foldl. rewrite IH by done.
    rewrite list_to_map_cons, <- insert_union_l. symmetry.
    apply insert_union_r. by apply not_elem_of_list_to_map_1.
Qed.

(** Without two pairs of the same key, [dict] keeps every pair. *)
Lemma dict_keeps_pairs pairs :
  NoDup pairs.*1 -> map_to_list (dict pairs) ≡ₚ pairs.
Proof.
  intros Hnd. unfold dict. rewrite foldl_insert_union by done.
  rewrite (right_id_L ∅ (∪)). by apply map_to_list_to_map.
Qed.

Lemma add_custom_tracks_eq diagram tracks_reorder :
  add_custom_tracks diagram tracks_reorder
  = diagram ++ (custom_track <$> tracks_reorder).
Proof.
  unfold add_custom_tracks. revert diagram.
  induction tracks_reorder as [|track tracks IH]; intros diagram; simpl.
  - by rewrite app_nil_r.
  - rewrite IH. by rewrite <- app_assoc.
Qed.

End Dict.

Section DrawTracks.

Implicit Types (tracks lane : list (string * Z)) (lanes : list (list (string * Z)))
  (diagram : list CustomTrackInsertions) (m : gmap string (list (string * Z))).

Lemma draw_tracks_eq fuel track_file gff_file diagram :
  draw_tracks fuel track_file gff_file diagram =
  match gene_name_of gff_file with
  | Returns gene_name =>
      match read_track_file track_file with
      | Returns track_sorted =>
          match track_sorted !! gene_name with
          | Some gene_track_list =>
              match (if (1 <? length gene_track_list)%nat
                     then overlap_recursive fuel gene_track_list
                     else Returns [gene_track_list]) with
              | Returns tracks =>
                  Returns (diagram ++ (custom_track <$> reorder tracks))
              | Raises e => Raises e
              | Running => Running
              end
          | None => Returns diagram
          end
      | Raises e => Raises e
      | Running => Running
      end
  | Raises e => Raises e
  | Running => Running
  end.
Proof.
  unfold draw_tracks. destruct (gene_name_of gff_file) as [gene| |]; try done.
  simpl. destruct (read_track_file track_file) as [m| |]; try done. simpl.
  destruct (m !! gene) as [tracks|]; [|done].
  destruct (if (1 <? length tracks)%nat then _ else _); simpl; try done.
  by rewrite add_custom_tracks_eq.
Qed.

(** The markers of all the lanes are those of the list, whatever its order. *)
Lemma concat_lanes_perm fuel tracks lanes :
  overlap_recursive fuel tracks = Returns lanes -> concat lanes ≡ₚ tracks.
Proof.
  intros (_ & ov & nov & _ & Hperm & Hcase)%overlap_recursive_returns.
  rewrite <- Hperm.
  destruct Hcase as [[-> ->]|(_ & k & s' & _ & Hrun & _ & ->)].
  - simpl. by rewrite app_nil_r.
  - rewrite concat_app. simpl. rewrite app_nil_r.
    rewrite (nsteps_complete _ _ _ Hrun). simpl.
    rewrite app_nil_r. apply (comm (++)).
Qed.

(** The lanes [draw_tracks] draws for a gene: those of the partitioner, or
    the list itself when it has a single track. *)
Lemma guarded_lanes fuel tracks lanes :
  ascending tracks ->
  (if (1 <? length tracks)%nat then overlap_recursive fuel tracks
   else Returns [tracks]) = Returns lanes ->
  concat lanes ≡ₚ tracks /\
  Forall (StronglySorted (gap_gt default_minimum)) lanes.
Proof.
  intros Hasc. destruct (Nat.ltb_spec 1 (length tracks)) as [Hlen|Hlen].
  - intros Hrun. split; [by apply (concat_lanes_perm fuel)|].
    by apply (overlap_recursive_well_spaced fuel tracks).
  - intros [= <-]. simpl. rewrite app_nil_r. split; [done|].
    constructor; [by apply short_well_spaced | done].
Qed.

(** In a lane free of overlaps no two tracks have the same position. *)
Lemma spaced_positions_NoDup lane :
  StronglySorted (gap_gt default_minimum) lane ->
  NoDup (fmap (M := list) (fun t : string * Z => (t.2, t.1)) lane).*1.
Proof.
  induction 1 as [|x lane Hs IH Hx]; simpl; [constructor|].
  apply NoDup_cons. split; [|done].
  rewrite list_elem_of_fmap. intros ([p n] & Hp & Hin). simpl in Hp.
  apply list_elem_of_fmap in Hin as (y & [= -> ->] & Hy).
  rewrite Forall_forall in Hx. specialize (Hx y Hy).
  unfold gap_gt, default_minimum in Hx. lia.
Qed.

Lemma shown_lanes lanes :
  Forall (StronglySorted (gap_gt default_minimum)) lanes ->
  concat (shown <$> (custom_track <$> reorder lanes))
  ≡ₚ fmap (M := list) (fun t : string * Z => (t.2, t.1)) (concat lanes).
Proof.
  induction 1 as [|lane lanes Hlane _ IH]; simpl; [done|].
  rewrite fmap_app, <- IH. f_equiv; [|done].
  unfold shown, custom_track. simpl.
  by apply dict_keeps_pairs, spaced_positions_NoDup.
Qed.

(** X11. [draw_tracks] shows every marker of the gene once: when it
    returns, the gene was named by the GFF file, the track file was read,
    and the custom tracks added to the diagram, all of side length 15, hold
    between them one pair (position, name) for each track of the gene and
    nothing else; no track is lost by two tracks of a lane having the same
    position. *)
Theorem draw_tracks_shows_every_marker fuel track_file gff_file diagram diagram' :
  draw_tracks fuel track_file gff_file diagram = Returns diagram' ->
  exists gene m added,
    gene_name_of gff_file = Returns gene /\
    read_track_file track_file = Returns m /\
    diagram' = diagram ++ added /\
    Forall (fun ct => sidelength ct = 15) added /\
    concat (shown <$> added)
    ≡ₚ fmap (M := list) (fun t : string * Z => (t.2, t.1)) (default [] (m !! gene)).
Proof.
  rewrite draw_tracks_eq.
  destruct (gene_name_of gff_file) as [gene| |]; try done.
  destruct (read_track_file track_file) as [m| |] eqn:Hread; try done.
  destruct (m !! gene) as [tracks|] eqn:Hgene.
  - destruct (if (1 <? length tracks)%nat then _ else _) as [lanes| |] eqn:Hlanes;
      try done.
    intros [= <-]. exists gene, m, (custom_track <$> reorder lanes).
    split_and!; [done..| |].
    + apply Forall_fmap, Forall_forall. by intros track _.
    + rewrite Hgene. simpl.
      assert (ascending tracks) as Hasc.
      { rewrite read_track_file_eq in Hread.
        destruct (parse_all (file_lines track_file)) as [records| |] eqn:Hall;
          try done.
        destruct (read_track_file_lookup _ _ Hall) as (m' & Hm' & Hlook).
        rewrite read_track_file_eq, Hall in Hm'. rewrite Hread in Hm'.
        simplify_eq. destruct (Hlook gene) as [_ Hok].
        by destruct (Hok tracks Hgene). }
      destruct (guarded_lanes fuel tracks lanes Hasc Hlanes) as [Hperm Hsp].
      by rewrite shown_lanes, Hperm.
  - intros [= <-]. exists gene, m, []. rewrite Hgene, app_nil_r.
    split_and!; done.
Qed.

End DrawTracks.

(** ** The errors of the callers *)

Section CallerErrors.

Implicit Types (tracks : list (string * Z)) (diagram : list CustomTrackInsertions)
  (content line gff : string).

Lemma parse_line_raises line e :
  parse_line line = Raises e -> e = IndexError \/ e = ValueError.
Proof.
  rewrite parse_line_eq.
  destruct (split TAB (strip line)) as [|g [|t [|f ?]]]; try (intros [= <-]; eauto).
  destruct (int_literal f); intros [= <-]; eauto.
Qed.

Lemma read_track_file_raises content e :
  read_track_file content = Raises e -> e = IndexError \/ e = ValueError.
Proof.
  rewrite read_track_file_eq.
  induction (file_lines content) as [|line lines IH]; simpl; [done|].
  destruct (parse_line line) as [r|e'|] eqn:Hline; simpl.
  - destruct (parse_all lines) as [rs|e'|]; simpl in *; try done.
  - intros [= <-]. by apply (parse_line_raises line).
  - done.
Qed.

Lemma item_raises data i e : item data i = Raises e -> e = IndexError.
Proof. unfold item. destruct (data !! i); by intros [= <-]. Qed.

Lemma gene_name_of_raises gff e : gene_name_of gff = Raises e -> e = IndexError.
Proof.
  unfold gene_name_of.
  destruct (item (file_lines gff) 2) as [line|e1|] eqn:H1; simpl;
    [|intros [= <-]; by apply item_raises in H1|done].
  destruct (item (split ";" line) 1) as [attribute|e2|] eqn:H2; simpl;
    [|intros [= <-]; by apply item_raises in H2|done].
  destruct (item (split "=" attribute) 1) as [value|e3|] eqn:H3; simpl;
    [done|intros [= <-]; by apply item_raises in H3|done].
Qed.

Lemma overlap_recursive_raises {Name : Type} fuel (l : list (Name * Z)) e :
  overlap_recursive fuel l = Raises e -> (length l < 2)%nat /\ e = AssertionError.
Proof.
  rewrite overlap_recursive_eq.
  destruct (Nat.ltb_spec 1 (length l)); [|intros [= <-]; split; [lia|done]].
  cbv zeta. destruct (select true _ l); [done|]. by intros ?%while_loop_no_raise.
Qed.

(** X12. [draw_tracks] never raises the [AssertionError] of the
    partitioner, which it calls on more than one track only: what it can
    raise is the [IndexError] and the [ValueError] of reading its two
    files. *)
Theorem draw_tracks_raises fuel track_file gff_file diagram e :
  draw_tracks fuel track_file gff_file diagram = Raises e ->
  e <> AssertionError /\ (e = IndexError \/ e = ValueError).
Proof.
  rewrite draw_tracks_eq. intros Hraise.
  assert (e = IndexError \/ e = ValueError) as [->| ->]; [|by eauto..].
  destruct (gene_name_of gff_file) as [gene|e1|] eqn:Hgene; [| |done].
  - destruct (read_track_file track_file) as [m|e2|] eqn:Hread; [| |done].
    + destruct (m !! gene) as [tracks|]; [|done].
      destruct (Nat.ltb_spec 1 (length tracks)) as [Hlen|Hlen]; [|done].
      destruct (overlap_recursive fuel tracks) as [lanes|e3|] eqn:Hrun; try done.
      apply overlap_recursive_raises in Hrun as [? _]. lia.
    + simplify_eq. by apply (read_track_file_raises track_file).
  - simplify_eq. left. by apply (gene_name_of_raises gff_file).
Qed.


Lemma split_none c a : contains c a = false -> split c a = [a].
Proof.
  induction a as [|d a IH]; simpl; [done|].
  intros [Hd Ha]%orb_false_elim. rewrite Hd. by rewrite IH.
Qed.

Lemma split_one_field c a : contains c a = false -> split c a !! 1%nat = None.
Proof. intros Ha. by rewrite split_none. Qed.

(** X13. A GFF file that does not name the gene where [draw_tracks] looks
    for it makes it raise [IndexError] before the track file is read,
    whatever that file holds: when the GFF file has fewer than three lines,
    when its third line has no semicolon, when the second field of that line
    has no equals sign. *)
Theorem draw_tracks_unnamed_gene fuel track_file gff_file diagram :
  (length (file_lines gff_file) < 3)%nat \/
  (exists line, file_lines gff_file !! 2%nat = Some line /\
     (contains ";" line = false \/
      exists attribute, split ";" line !! 1%nat = Some attribute /\
        contains "=" attribute = false)) ->
  gene_name_of gff_file = Raises IndexError /\
  draw_tracks fuel track_file gff_file diagram = Raises IndexError.
Proof.
  intros Hgff.
  assert (gene_name_of gff_file = Raises IndexError) as Hname.
  { unfold gene_name_of, item.
    destruct Hgff as [Hlen|(line & Hline & [Hsemi|(attribute & Hattr & Heq)])].
    - by rewrite lookup_ge_None_2 by lia.
    - rewrite Hline. simpl. by rewrite split_one_field.
    - rewrite Hline. simpl. rewrite Hattr. simpl. by rewrite split_one_field. }
  split; [done|]. by rewrite draw_tracks_eq, Hname.
Qed.

End CallerErrors.

Lemma draw_tracks_raises_witness :
  IndexError <> AssertionError /\ (IndexError = IndexError \/ IndexError = ValueError).
Proof. apply (draw_tracks_raises 0 example_source EmptyString []). reflexivity. Defined.

Lemma draw_tracks_unnamed_gene_witness :
  gene_name_of "##gff-version 3" = Raises IndexError /\
  draw_tracks 0 four_fields "##gff-version 3" [] = Raises IndexError.
Proof.
  apply (draw_tracks_unnamed_gene 0 four_fields "##gff-version 3" []).
  left. simpl. lia.
Defined.

(** ** What the callers do with a gene *)

Section CallerResults.

Implicit Types (tracks : list (string * Z)) (diagram : list CustomTrackInsertions)
  (records : list (string * string * Z)) (gene : string).

Lemma read_track_file_gene content records gene :
  parse_all (file_lines content) = Returns records ->
  exists m : gmap string (list (string * Z)),
    read_track_file content = Returns m /\
    m !! gene = match gene_tracks gene records with
                | [] => None
                | tracks => Some (sorted tracks)
                end.
Proof.
  intros Hall. rewrite read_track_file_eq, Hall, fmap_Returns.
  eexists. split; [done|].
  rewrite lookup_fmap, lookup_foldl_add_record, lookup_empty.
  by destruct (gene_tracks gene records).
Qed.

(** X14. A gene without track in the track file leaves the diagram as it
    is; a gene with one track adds one custom track showing that track, and
    the partitioner is not called. *)
Theorem draw_tracks_few_tracks fuel track_file gff_file diagram records gene :
  gene_name_of gff_file = Returns gene ->
  parse_all (file_lines track_file) = Returns records ->
  (gene_tracks gene records = [] ->
     draw_tracks fuel track_file gff_file diagram = Returns diagram) /\
  (forall name pos, gene_tracks gene records = [(name, pos)] ->
     draw_tracks fuel track_file gff_file diagram
     = Returns (diagram ++ [{| sidelength := 15; data := {[ pos := name ]} |}])).
Proof.
  intros Hgene Hall.
  destruct (read_track_file_gene track_file records gene Hall) as (m & Hm & Hlook).
  rewrite draw_tracks_eq, Hgene, Hm.
  split.
  - intros Hnone. rewrite Hnone in Hlook. by rewrite Hlook.
  - intros name pos Hone. rewrite Hone in Hlook. by rewrite Hlook.
Qed.

(** X15. The script of track_check.py has no such guard: on a source that
    is read, it raises [KeyError] when CHST13 has no track and
    [AssertionError] when CHST13 has a single track. *)
Theorem script_fails_on_few_tracks fuel content records :
  parse_all (file_lines content) = Returns records ->
  (gene_tracks "CHST13" records = [] -> script fuel content = KeyError) /\
  (forall t, gene_tracks "CHST13" records = [t] ->
     script fuel content = Failed AssertionError).
Proof.
  intros Hall.
  destruct (read_track_file_gene content records "CHST13" Hall) as (m & Hm & Hlook).
  unfold script. rewrite Hm. split.
  - intros Hnone. rewrite Hnone in Hlook. by rewrite Hlook.
  - intros t Hone. rewrite Hone in Hlook. by rewrite Hlook.
Qed.

Lemma overlap_recursive_more_fuel {Name : Type} fuel fuel' (l : list (Name * Z)) lanes :
  (fuel <= fuel')%nat ->
  overlap_recursive fuel l = Returns lanes ->
  overlap_recursive fuel' l = Returns lanes.
Proof.
  intros Hle. rewrite !overlap_recursive_eq.
  destruct (1 <? length l)%nat; [|done]. cbv zeta.
  destruct (select true _ l); [done|]. by apply while_loop_more_fuel.
Qed.

Lemma digits_value_nonneg acc s z :
  0 <= acc -> digits_value acc s = Some z -> 0 <= z.
Proof.
  revert acc. induction s as [|c s IH]; intros acc Hacc; simpl.
  - by intros [= <-].
  - unfold digit_of.
    destruct ((48 <=? nat_of_ascii c)%nat && (nat_of_ascii c <=? 57)%nat) eqn:Hc;
      [|done].
    simpl. apply IH. apply andb_prop in Hc as [Hlo%Nat.leb_le _]. lia.
Qed.

Lemma read_records_non_negative gene (source : list (string * string * string)) :
  non_negative (gene_tracks gene (read_record <$> source)).
Proof.
  unfold non_negative, gene_tracks. rewrite Forall_fmap.
  apply Forall_forall. intros r Hr. simpl.
  apply list_elem_of_filter in Hr as [_ Hr].
  apply list_elem_of_fmap in Hr as (r' & -> & _). unfold read_record. simpl.
  destruct (digits_value 0 r'.2) as [z|] eqn:Hz; simpl; [|done].
  by apply (digits_value_nonneg 0 r'.2).
Qed.

Lemma gene_tracks_length gene records :
  (length (gene_tracks gene records) <= length records)%nat.
Proof.
  unfold gene_tracks. rewrite length_fmap. apply length_filter.
Qed.

(** X16. On a track file of well-formed records, [draw_tracks] returns,
    for any gene the GFF file names: the positions are not negative, and the
    loop of the partitioner needs fewer iterations than the file has
    records. *)
Theorem draw_tracks_returns fuel source gff_file diagram gene :
  Forall well_formed_record source ->
  gene_name_of gff_file = Returns gene ->
  (length source <= fuel + 2)%nat ->
  exists diagram',
    draw_tracks fuel (source_of source) gff_file diagram = Returns diagram'.
Proof.
  intros Hall%well_formed_source_reads Hgene Hfuel.
  destruct (read_track_file_lookup _ _ Hall) as (m & Hm & Hlook).
  rewrite draw_tracks_eq, Hgene, Hm.
  destruct (m !! gene) as [tracks|] eqn:Htracks; [|eauto].
  destruct (Hlook gene) as [_ Hok].
  destruct (Hok tracks Htracks) as (_ & Hperm & _).
  destruct (Nat.ltb_spec 1 (length tracks)) as [Hlen|Hlen]; [|eauto].
  assert (non_negative tracks) as Hnn.
  { unfold non_negative. rewrite Hperm. apply read_records_non_negative. }
  destruct (overlap_recursive_terminates tracks Hnn) as [lanes Hlanes]; [lia|].
  rewrite (overlap_recursive_more_fuel (length tracks - 2) fuel tracks lanes);
    [eauto| |done].
  pose proof (gene_tracks_length gene (read_record <$> source)) as Hle.
  rewrite length_fmap, <- Hperm in Hle. lia.
Qed.

End CallerResults.

(** ** The gene name of the GFF file *)

Section GeneName.

Implicit Types (s a b before key value rest : string).




End GeneName.



Lemma draw_tracks_shows_every_marker_witness :
  exists gene m added,
    gene_name_of example_gff = Returns gene /\
    read_track_file example_source = Returns m /\
    [ {| sidelength := 15; data := {[ 50 := "var2" ]} |};
      {| sidelength := 15; data := {[ 100 := "var1" ]} |} ] = [] ++ added /\
    Forall (fun ct => sidelength ct = 15) added /\
    concat (shown <$> added)
    ≡ₚ fmap (M := list) (fun t : string * Z => (t.2, t.1)) (default [] (m !! gene)).
Proof.
  apply (draw_tracks_shows_every_marker 0 example_source example_gff []).
  by vm_compute.
Defined.

Lemma draw_tracks_few_tracks_witness :
  draw_tracks 0 four_fields example_gff [] = Returns [] /\
  forall name pos, gene_tracks "CHST13" [("G", "v", 5)] = [(name, pos)] ->
    draw_tracks 0 four_fields example_gff []
    = Returns ([] ++ [{| sidelength := 15; data := {[ pos := name ]} |}]).
Proof.
  destruct (draw_tracks_few_tracks 0 four_fields example_gff [] [("G", "v", 5)]
              "CHST13") as [Hnone Hone]; [by vm_compute | by vm_compute |].
  split; [by apply Hnone | exact Hone].
Defined.

Lemma script_fails_on_few_tracks_witness :
  script 0 four_fields = KeyError.
Proof.
  destruct (script_fails_on_few_tracks 0 four_fields [("G", "v", 5)])
    as [Hnone _]; [by vm_compute|].
  by apply Hnone.
Defined.

Lemma draw_tracks_returns_witness :
  exists diagram',
    draw_tracks 0 (source_of [("CHST13", "var1", "100"); ("CHST13", "var2", "50")])
      example_gff [] = Returns diagram'.
Proof.
  apply (draw_tracks_returns 0
           [("CHST13", "var1", "100"); ("CHST13", "var2", "50")]
           example_gff [] "CHST13").
  - repeat (apply Forall_cons; split; [by repeat split|]). constructor.
  - reflexivity.
  - simpl. lia.
Defined.
